(** * Ops-task dashboard core: pipeline deriver, task factory, simulation tick

    A shallow embedding of the logic of [src/App.jsx]: [planReply],
    [derivePipeline], [summarize], [makeTask], [calcDuration] and the body of
    the one-second simulation interval, followed by the properties the
    specification states about them.

    Modelling conventions.
    - A JavaScript string is the list of its UTF-16 code units ([jsstring]).
      Literals are written as Rocq strings and decoded from UTF-8 by [lit].
    - A JavaScript number is modelled exactly: progress values are rationals
      ([Q]), counters and timestamps are integers ([Z]).  Rounding of IEEE
      doubles is not modelled.
    - [Math.random] and [Date.now] are ambient effects; they are read from
      two oracles carried in a [World], one sample per call, in call order.
    - A thrown exception is a value of [completion]. *)

From Stdlib Require Import List String Ascii Bool Arith NArith ZArith QArith.
From Stdlib Require Import Lia Lqa DecimalString Permutation.
Import ListNotations.

(* ===================================================================== *)
(** ** JavaScript strings *)
(* ===================================================================== *)

Module Js.

Local Open Scope N_scope.

Definition jsstring := list N.

(** UTF-8 bytes of a Rocq literal. *)
Fixpoint bytes_of (s : string) : list N :=
  match s with
  | EmptyString => []
  | String a s' => N_of_ascii a :: bytes_of s'
  end.

(** UTF-8 decoding into UTF-16 code units (a four-byte sequence gives a
    surrogate pair).  Only used to write literals. *)
Fixpoint utf8_units (bs : list N) : jsstring :=
  match bs with
  | [] => []
  | b0 :: r0 =>
    if b0 <? 128 then b0 :: utf8_units r0
    else if b0 <? 224 then
      match r0 with
      | b1 :: r1 => ((b0 - 192) * 64 + (b1 - 128)) :: utf8_units r1
      | [] => []
      end
    else if b0 <? 240 then
      match r0 with
      | b1 :: b2 :: r2 =>
          ((b0 - 224) * 4096 + (b1 - 128) * 64 + (b2 - 128)) :: utf8_units r2
      | _ => []
      end
    else
      match r0 with
      | b1 :: b2 :: b3 :: r3 =>
          let cp := (b0 - 240) * 262144 + (b1 - 128) * 4096
                    + (b2 - 128) * 64 + (b3 - 128) in
          let v := cp - 65536 in
          (55296 + v / 1024) :: (56320 + v mod 1024) :: utf8_units r3
      | _ => []
      end
  end.

Definition lit (s : string) : jsstring := utf8_units (bytes_of s).

(** [s.startsWith(p)], also the test used to find a separator at a position. *)
Fixpoint starts_with (p s : jsstring) : bool :=
  match p, s with
  | [], _ => true
  | _ :: _, [] => false
  | a :: p', b :: s' => (a =? b) && starts_with p' s'
  end.

(** Substring test: a regular expression made of literal characters only,
    without anchors, tested with [RegExp.prototype.test]. *)
Fixpoint includes (p s : jsstring) : bool :=
  starts_with p s ||
  match s with
  | [] => false
  | _ :: s' => includes p s'
  end.

(** [String.prototype.split] with a string separator.  [skip] counts the
    code units of a separator occurrence still to be passed over, [cur] is
    the piece being collected, reversed. *)
Fixpoint split_go (sep : jsstring) (skip : nat) (cur s : jsstring)
  : list jsstring :=
  match s with
  | [] => [rev cur]
  | c :: s' =>
    match skip with
    | S k => split_go sep k cur s'
    | O =>
      if starts_with sep s
      then rev cur :: split_go sep (Nat.pred (List.length sep)) [] s'
      else split_go sep 0 (c :: cur) s'
    end
  end.

Definition split (sep s : jsstring) : list jsstring :=
  match sep with
  | [] => map (fun c => [c]) s
  | _ :: _ => split_go sep 0 [] s
  end.

(** WhiteSpace and LineTerminator code units, the set [trim] removes. *)
Definition is_white_space (c : N) : bool :=
  ((9 <=? c) && (c <=? 13)) || (c =? 32) || (c =? 160) || (c =? 5760)
  || ((8192 <=? c) && (c <=? 8202)) || (c =? 8232) || (c =? 8233)
  || (c =? 8239) || (c =? 8287) || (c =? 12288) || (c =? 65279).

Fixpoint trim_start (s : jsstring) : jsstring :=
  match s with
  | [] => []
  | c :: s' => if is_white_space c then trim_start s' else s
  end.

Definition trim_end (s : jsstring) : jsstring := rev (trim_start (rev s)).

Definition trim (s : jsstring) : jsstring := trim_end (trim_start s).

(** [\d] *)
Definition is_digit (c : N) : bool := (48 <=? c) && (c <=? 57).

Fixpoint drop_digits (s : jsstring) : jsstring :=
  match s with
  | [] => []
  | c :: s' => if is_digit c then drop_digits s' else s
  end.

(** [/^\d+\./.test(l)] *)
Definition test_number_dot (l : jsstring) : bool :=
  match l with
  | [] => false
  | c :: s' => is_digit c && starts_with [46] (drop_digits s')
  end.

(** [s.slice(0, n)] for [0 <= n]. *)
Definition slice0 (n : nat) (s : jsstring) : jsstring := firstn n s.

(** Template-literal rendering of a non-negative integer. *)
Definition of_N (n : N) : jsstring :=
  lit (NilZero.string_of_uint (N.to_uint n)).

(** [a.join(sep)] *)
Fixpoint join (sep : jsstring) (l : list jsstring) : jsstring :=
  match l with
  | [] => []
  | [x] => x
  | x :: l' => x ++ sep ++ join sep l'
  end.

(** [x || d] on a possibly undefined string: the empty string is falsy. *)
Definition or_str (x : option jsstring) (d : jsstring) : jsstring :=
  match x with
  | Some [] | None => d
  | Some s => s
  end.

End Js.

Import Js.

Definition nl : jsstring := [10%N].

(* ===================================================================== *)
(** ** Data model *)
(* ===================================================================== *)

Inductive Role := user | ai.

Record Message := { role : Role; text : jsstring }.

Definition msg (r : Role) (s : string) : Message :=
  {| role := r; text := lit s |}.

Inductive Status := queued | running | complete.

Definition Status_eqb (a b : Status) : bool :=
  match a, b with
  | queued, queued | running, running | complete, complete => true
  | _, _ => false
  end.

(** A step object; [progress] and [duration] may be absent. *)
Module Step.
Record t := mk {
  name : jsstring;
  status : Status;
  llm : jsstring;
  progress : option Q;
  duration : option jsstring
}.
End Step.

Module Task.
Record t := mk {
  id : Z;
  name : jsstring;
  status : Status;
  progress : Q;
  user : jsstring;
  llm : jsstring;
  startTime : Z;                 (* the instant the ISO string denotes, in ms *)
  duration : option jsstring;
  steps : list Step.t
}.
End Task.

(* ===================================================================== *)
(** ** Exceptions *)
(* ===================================================================== *)

Inductive JsError := TypeError.

Inductive completion (A : Type) : Type :=
| Normal (a : A)
| Throw (e : JsError).

Arguments Normal {A} a.
Arguments Throw {A} e.

Definition cbind {A B} (c : completion A) (k : A -> completion B)
  : completion B :=
  match c with
  | Normal a => k a
  | Throw e => Throw e
  end.

(** [a.map(f)] where [f] may throw: elements are visited in order and the
    first exception aborts the call. *)
Fixpoint cmap {A B} (f : A -> completion B) (l : list A)
  : completion (list B) :=
  match l with
  | [] => Normal []
  | x :: l' =>
      cbind (f x) (fun y => cbind (cmap f l') (fun ys => Normal (y :: ys)))
  end.

(* ===================================================================== *)
(** ** Reply planner and pipeline deriver *)
(* ===================================================================== *)

Definition base : list (jsstring * jsstring) :=
  [ (lit "Ingest Inputs",   lit "GPT-4");
    (lit "Plan & Branch",   lit "Claude Sonnet 4.5");
    (lit "Execute Tools",   lit "Kimi K2");
    (lit "Verify & Report", lit "GPT-4") ].

(** [a.map((s, i) => f s i)] *)
Fixpoint mapi_from {A B} (i : N) (f : A -> N -> B) (l : list A) : list B :=
  match l with
  | [] => []
  | x :: l' => f x i :: mapi_from (N.succ i) f l'
  end.

Definition planReply (text : jsstring) : jsstring :=
  (lit "Here is a concise pipeline for “" ++ text ++ lit "”:" ++ nl ++ nl)
  ++ join nl
       (mapi_from 0%N
          (fun s i => of_N (i + 1) ++ lit ". " ++ fst s ++ lit " — " ++ snd s)
          base)
  ++ (nl ++ nl ++ lit "You can start as-is or ask me to adjust steps/LLMs.").

(** The arrow function mapped over the numbered lines.  [rest] is the second
    piece of [l.split('. ')]; when there is none it is [undefined] and
    [rest.split] throws. *)
Definition parse_line (l : jsstring) : completion Step.t :=
  match split (lit ". ") l with
  | _idxRest :: rest :: _ =>
      match split (lit " — ") rest with
      | namePart :: more =>
          Normal (Step.mk (trim namePart) queued
                    (trim (or_str (hd_error more) (lit "GPT-4"))) None None)
      | [] => Throw TypeError
      end
  | _ => Throw TypeError
  end.

Definition is_plan (m : Message) : bool :=
  match role m with
  | ai => includes (lit "1.") (text m)
  | user => false
  end.

Definition set_status (st : Status) (s : Step.t) : Step.t :=
  Step.mk (Step.name s) st (Step.llm s) (Step.progress s) (Step.duration s).

(** [derivePipeline]: [Normal None] stands for [undefined]. *)
Definition derivePipeline (messages : list Message)
  : completion (option (list Step.t)) :=
  match find is_plan (rev messages) with
  | None => Normal None
  | Some lastPlan =>
      let lines := filter test_number_dot (split nl (text lastPlan)) in
      cbind (cmap parse_line lines) (fun steps =>
        Normal (Some match steps with
                     | [] => []
                     | s0 :: more => set_status running s0 :: more
                     end))
  end.

Definition is_user (m : Message) : bool :=
  match role m with user => true | ai => false end.

Definition summarize (messages : list Message) : jsstring :=
  match find is_user (rev messages) with
  | Some lastUser => slice0 60 (text lastUser)
  | None => lit "New Orchestrated Task"
  end.

(* ===================================================================== *)
(** ** Ambient state: random source, clock, identifier counter *)
(* ===================================================================== *)

Record World := {
  random_src : nat -> Q;     (* the successive results of [Math.random()] *)
  random_calls : nat;
  clock_src : nat -> Z;      (* the successive results of [Date.now()] *)
  clock_calls : nat;
  idCounter : Z
}.

Definition M (A : Type) : Type := World -> A * World.

Definition ret {A} (a : A) : M A := fun w => (a, w).

Definition bind {A B} (c : M A) (k : A -> M B) : M B :=
  fun w => let (a, w') := c w in k a w'.

Declare Scope js_scope.
Delimit Scope js_scope with js.
Notation "x <- c ;; k" := (bind c (fun x => k))
  (at level 61, c at next level, right associativity) : js_scope.
Local Open Scope js_scope.

Definition Math_random : M Q := fun w =>
  (random_src w (random_calls w),
   {| random_src := random_src w; random_calls := S (random_calls w);
      clock_src := clock_src w; clock_calls := clock_calls w;
      idCounter := idCounter w |}).

Definition Date_now : M Z := fun w =>
  (clock_src w (clock_calls w),
   {| random_src := random_src w; random_calls := random_calls w;
      clock_src := clock_src w; clock_calls := S (clock_calls w);
      idCounter := idCounter w |}).

(** [++idCounter] *)
Definition next_id : M Z := fun w =>
  ((idCounter w + 1)%Z,
   {| random_src := random_src w; random_calls := random_calls w;
      clock_src := clock_src w; clock_calls := clock_calls w;
      idCounter := (idCounter w + 1)%Z |}).

(** [a.map(f)] for an effectful [f]: left to right. *)
Fixpoint mmap {A B} (f : A -> M B) (l : list A) : M (list B) :=
  match l with
  | [] => ret []
  | x :: l' => y <- f x ;; ys <- mmap f l' ;; ret (y :: ys)
  end.

(* ===================================================================== *)
(** ** Numbers *)
(* ===================================================================== *)

Definition Qltb (a b : Q) : bool := negb (Qle_bool b a).

(** [Math.min(100, x)] *)
Definition min100 (x : Q) : Q := if Qle_bool 100 x then 100%Q else x.

(** [x || d] on a possibly absent number: [undefined] and [0] are falsy. *)
Definition or_num (x : option Q) (d : Q) : Q :=
  match x with
  | Some q => if Qeq_bool q 0 then d else q
  | None => d
  end.

(* ===================================================================== *)
(** ** Durations and the task factory *)
(* ===================================================================== *)

(** [calcDuration(start)]; [Math.round] of a quotient by 1000 is the floor
    of the quotient of the dividend plus 500. *)
Definition calcDuration (start : Z) : M jsstring :=
  now <- Date_now ;;
  let sec := Z.max 0 ((now - start + 500) / 1000) in
  if (sec <? 60)%Z then ret (of_N (Z.to_N sec) ++ lit "s")
  else
    let m := (sec / 60)%Z in
    let r := (sec mod 60)%Z in
    ret (of_N (Z.to_N m) ++ lit "m " ++ of_N (Z.to_N r) ++ lit "s").

Definition default_pipeline : list Step.t :=
  [ Step.mk (lit "Ingest Requirements") running (lit "GPT-4") (Some 15%Q) None;
    Step.mk (lit "Spec Synthesis") queued (lit "Claude Sonnet 4.5") None None;
    Step.mk (lit "Ops Plan + Checks") queued (lit "Kimi K2") None None;
    Step.mk (lit "Execution & Verify") queued (lit "GPT-4") None None ].

Definition is_running (s : Step.t) : bool := Status_eqb (Step.status s) running.

(** [makeTask(name, user, steps)]; [None] is an omitted or [undefined]
    argument.  An array, even an empty one, is truthy. *)
Definition makeTask (name : jsstring) (user : option jsstring)
           (steps : option (list Step.t)) : M Task.t :=
  start <- Date_now ;;
  let pipeline := match steps with Some a => a | None => default_pipeline end in
  i <- next_id ;;
  ret (Task.mk i name running 5%Q
         (or_str user (lit "You"))
         (or_str (option_map Step.llm (find is_running pipeline)) (lit "GPT-4"))
         start (Some (lit "0s")) pipeline).

Definition currentUser : jsstring := lit "You".

(** The part of [createTaskFromChat] that builds the task. *)
Definition createTaskFromChat (messages : list Message)
  : completion (M Task.t) :=
  let name := summarize messages in
  cbind (derivePipeline messages) (fun pipeline =>
    Normal (makeTask name (Some currentUser) pipeline)).

(** [seedTasks()]: the three tasks the dashboard starts with; [ago(min)] is
    [min] minutes before the one reading of the clock. *)
Definition ago (now min : Z) : Z := (now - min * 60000)%Z.

Definition seed_t1 (now : Z) : Task.t :=
  Task.mk 1 (lit "Reconcile Q3 Invoices") running 42%Q (lit "You")
    (lit "GPT-4") (ago now 5) (Some (lit "5m 0s"))
    [ Step.mk (lit "Parse PDFs") complete (lit "GPT-4") (Some 100%Q)
        (Some (lit "2m 10s"));
      Step.mk (lit "Vendor Matching") running (lit "Claude Sonnet 4.5")
        (Some 35%Q) (Some (lit "1m 10s"));
      Step.mk (lit "Anomaly Check") queued (lit "Kimi K2") None None;
      Step.mk (lit "Ledger Update") queued (lit "GPT-4") None None ].

Definition seed_t2 (now : Z) : Task.t :=
  Task.mk 2 (lit "Procurement: Monitor RFP replies") queued 0%Q (lit "Ava")
    (lit "Claude Sonnet 4.5") (ago now 1) None
    [ Step.mk (lit "Collect Emails") queued (lit "Kimi K2") None None;
      Step.mk (lit "Summarize Replies") queued (lit "GPT-4") None None;
      Step.mk (lit "Score Vendors") queued (lit "Claude Sonnet 4.5")
        None None ].

Definition seed_t3 (now : Z) : Task.t :=
  Task.mk 3 (lit "IT: Access Review Batch") complete 100%Q (lit "Ben")
    (lit "Kimi K2") (ago now 45) (Some (lit "12m 14s"))
    [ Step.mk (lit "Export Accounts") complete (lit "GPT-4") (Some 100%Q)
        (Some (lit "3m 00s"));
      Step.mk (lit "Policy Diff") complete (lit "Claude Sonnet 4.5")
        (Some 100%Q) (Some (lit "4m 40s"));
      Step.mk (lit "Notify Owners") complete (lit "Kimi K2") (Some 100%Q)
        (Some (lit "4m 34s")) ].

Definition seedTasks : M (list Task.t) :=
  now <- Date_now ;;
  ret [seed_t1 now; seed_t2 now; seed_t3 now].

(** The transcript the chat panel starts with. *)
Definition initial_messages : list Message :=
  [ msg ai "Describe your ops task. I will help plan the multi-LLM pipeline before you run it." ].

(* ===================================================================== *)
(** ** Simulation tick *)
(* ===================================================================== *)

(** The callback of [task.steps.map]; [progress] is the task's freshly
    incremented progress. *)
Definition tick_step (startTime : Z) (progress : Q) (step : Step.t)
  : M Step.t :=
  match Step.status step with
  | running =>
      r <- Math_random ;;
      let sp := min100 (or_num (Step.progress step) 0 + r * 10)%Q in
      let nextStatus := if Qle_bool 100 sp then complete else running in
      d <- calcDuration startTime ;;
      ret (Step.mk (Step.name step) nextStatus (Step.llm step)
             (Some sp) (Some d))
  | queued =>
      if Qltb 10 progress then
        r <- Math_random ;;
        if Qltb (7 # 10) r then
          d <- calcDuration startTime ;;
          ret (Step.mk (Step.name step) running (Step.llm step)
                 (Some (or_num (Step.progress step) 5)) (Some d))
        else ret step
      else ret step
  | complete => ret step
  end.

Definition is_complete (s : Step.t) : bool :=
  Status_eqb (Step.status s) complete.

(** The callback of [prev.map]. *)
Definition tick_task (task : Task.t) : M Task.t :=
  match Task.status task with
  | running =>
      r <- Math_random ;;
      let progress := min100 (Task.progress task + r * 6)%Q in
      steps <- mmap (tick_step (Task.startTime task) progress)
                    (Task.steps task) ;;
      let complete_ := forallb is_complete steps || Qle_bool 100 progress in
      d <- calcDuration (Task.startTime task) ;;
      ret (Task.mk (Task.id task) (Task.name task)
             (if complete_ then complete else running)
             (if complete_ then 100%Q else progress)
             (Task.user task) (Task.llm task) (Task.startTime task)
             (Some d) steps)
  | _ => ret task
  end.

(** One firing of the interval: [prev.map(task => ...)]. *)
Definition tick (prev : list Task.t) : M (list Task.t) := mmap tick_task prev.

(** [n] successive firings. *)
Fixpoint ticks (n : nat) (tasks : list Task.t) : M (list Task.t) :=
  match n with
  | O => ret tasks
  | S n' => tasks' <- tick tasks ;; ticks n' tasks'
  end.

(** The same for a single task followed through the collection. *)
Fixpoint ticks_task (n : nat) (task : Task.t) : M Task.t :=
  match n with
  | O => ret task
  | S n' => task' <- tick_task task ;; ticks_task n' task'
  end.

(* ===================================================================== *)
(** ** Vocabulary of the properties *)
(* ===================================================================== *)

Definition lines (s : jsstring) : list jsstring := split nl s.

(** Cutting a string at the leftmost occurrence of [sep]: the part before
    it and the part after it. *)
Fixpoint cut_at (sep s : jsstring) : option (jsstring * jsstring) :=
  if starts_with sep s then Some ([], skipn (List.length sep) s)
  else
    match s with
    | [] => None
    | c :: s' =>
        match cut_at sep s' with
        | Some (a, b) => Some (c :: a, b)
        | None => None
        end
    end.

Fixpoint take_digits (s : jsstring) : jsstring :=
  match s with
  | [] => []
  | c :: s' => if is_digit c then c :: take_digits s' else []
  end.

Definition dot_space : jsstring := lit ". ".
Definition dash_sep : jsstring := lit " — ".
Definition fallback_llm : jsstring := lit "GPT-4".

(** The text of a numbered line after its index and the following two
    code units. *)
Definition rest_of (l : jsstring) : jsstring := skipn 2 (drop_digits l).

(** A numbered line in the shape [<integer>. <rest>]. *)
Definition has_rest (l : jsstring) : bool :=
  test_number_dot l && starts_with dot_space (drop_digits l).

(** The step the specification's sentence assigns to a line
    [<integer>. <rest>]: [rest] is cut at the separator, both parts are
    trimmed, and the label is the fallback when there is no separator. *)
Definition stated_step (rest : jsstring) : Step.t :=
  match cut_at dash_sep rest with
  | Some (n, l) => Step.mk (trim n) queued (trim l) None None
  | None => Step.mk (trim rest) queued fallback_llm None None
  end.

Definition first_running (steps : list Step.t) : list Step.t :=
  match steps with
  | [] => []
  | s0 :: more => set_status running s0 :: more
  end.

Definition stated_pipeline (t : jsstring) : list Step.t :=
  first_running (map (fun l => stated_step (rest_of l))
                     (filter has_rest (lines t))).

(** What the parser yields on a line whose [rest] holds no further
    [". "]: the label is the part between the first and the second
    separator, and the fallback when that part is missing or empty. *)
Definition parsed_step (rest : jsstring) : Step.t :=
  match cut_at dash_sep rest with
  | None => Step.mk (trim rest) queued fallback_llm None None
  | Some (n, after) =>
      let label := match cut_at dash_sep after with
                   | Some (x, _) => x
                   | None => after
                   end in
      Step.mk (trim n) queued
              (trim match label with [] => fallback_llm | _ :: _ => label end)
              None None
  end.

(** A numbered line on which the parser is exact: [<integer>. <rest>] with
    no second [". "]. *)
Definition plain_line (l : jsstring) : bool :=
  has_rest l && negb (includes dot_space (rest_of l)).

(** The four steps of the canned proposal, as derived from it. *)
Definition planned_steps : list Step.t :=
  [ Step.mk (lit "Ingest Inputs") running (lit "GPT-4") None None;
    Step.mk (lit "Plan & Branch") queued (lit "Claude Sonnet 4.5") None None;
    Step.mk (lit "Execute Tools") queued (lit "Kimi K2") None None;
    Step.mk (lit "Verify & Report") queued (lit "GPT-4") None None ].

Definition reply_head : jsstring := lit "Here is a concise pipeline for “".

Definition reply_tail : jsstring :=
  lit "”:" ++ nl ++ nl
  ++ lit "1. Ingest Inputs — GPT-4" ++ nl
  ++ lit "2. Plan & Branch — Claude Sonnet 4.5" ++ nl
  ++ lit "3. Execute Tools — Kimi K2" ++ nl
  ++ lit "4. Verify & Report — GPT-4" ++ nl ++ nl
  ++ lit "You can start as-is or ask me to adjust steps/LLMs.".

(** No line of [t] after the first begins with digits and a dot. *)
Definition no_numbered_continuation (t : jsstring) : Prop :=
  Forall (fun l => test_number_dot l = false) (tl (lines t)).

(** Range invariants of the simulation. *)
Definition in_range (q : Q) : Prop := (0 <= q /\ q <= 100)%Q.

Definition step_in_range (s : Step.t) : Prop :=
  match Step.progress s with
  | Some p => in_range p
  | None => True
  end.

Definition task_in_range (t : Task.t) : Prop :=
  in_range (Task.progress t) /\ Forall step_in_range (Task.steps t).

(** The random source only yields numbers of [[0, 1)]. *)
Definition unit_random (w : World) : Prop :=
  forall n, (0 <= random_src w n /\ random_src w n < 1)%Q.

(** "Seeded at its prior value, or 5 if unset", as a relation between the
    step before promotion and the step after it. *)
Definition seeded_as_stated (before after : Step.t) : Prop :=
  match Step.progress before, Step.progress after with
  | Some p, Some p' => (p' == p)%Q
  | None, Some p' => (p' == 5)%Q
  | _, None => False
  end.

(** The seed the code computes: zero counts as unset. *)
Definition seed_of (p : option Q) : Q :=
  match p with
  | Some q => if Qeq_bool q 0 then 5%Q else q
  | None => 5%Q
  end.

(** A sample state of the ambient effects: a constant random source, a
    clock that advances one second per reading, the initial counter. *)
Definition sample_world (r : Q) : World :=
  {| random_src := fun _ => r; random_calls := 0;
     clock_src := fun n => (1000000 + 1000 * Z.of_nat n)%Z; clock_calls := 0;
     idCounter := 1000 |}.

Definition two_line_plan : jsstring :=
  lit "1. Ingest Inputs — GPT-4" ++ nl ++ lit "2. Plan & Branch — Claude Sonnet 4.5".

(** "The tick increases the overall progress by an amount in [[0, 6]],
    capped at 100", as a relation between a task and the task a tick
    returns for it. *)
Definition increased_as_stated (t t' : Task.t) : Prop :=
  exists d : Q,
    (0 <= d)%Q /\ (d <= 6)%Q
    /\ (Task.progress t' == min100 (Task.progress t + d))%Q.

(** A running task at progress 20 whose only step is about to finish. *)
Definition last_step_task : Task.t :=
  Task.mk 7 (lit "Audit Logs") running 20%Q (lit "You") (lit "GPT-4") 0
    (Some (lit "0s"))
    [ Step.mk (lit "Verify & Report") running (lit "GPT-4") (Some 95%Q)
        (Some (lit "40s")) ].

(** The task progress after the random increment, before any capping:
    [task.progress + Math.random() * 6] with the next random number. *)
Definition incremented (t : Task.t) (w : World) : Q :=
  (Task.progress t + random_src w (random_calls w) * 6)%Q.


(** Computations that leave the random source, respectively the identifier
    counter, as they found it. *)
Definition keeps_random {A} (c : M A) : Prop :=
  forall w, random_src (snd (c w)) = random_src w.

Definition keeps_counter {A} (c : M A) : Prop :=
  forall w, idCounter (snd (c w)) = idCounter w.

(* ===================================================================== *)
(** ** The dashboard: component state, derived values, event handlers *)
(* ===================================================================== *)

Inductive View := team | individual.

(** [a === b] on strings. *)
Fixpoint jsstring_eqb (a b : jsstring) : bool :=
  match a, b with
  | [], [] => true
  | x :: a', y :: b' => (x =? y)%N && jsstring_eqb a' b'
  | _, _ => false
  end.

(** The state of the [App] component that its logic reads and writes (the
    theme and the open flag of the chat dialog only drive rendering).
    [replies_due] holds the texts captured by the [setTimeout] callbacks of
    [sendMessage] that have not run yet. *)
Module App.
Record t := mk {
  tasks : list Task.t;
  selectedId : option Z;           (* [null] as [None] *)
  view : View;
  messages : list Message;
  draft : jsstring;
  replies_due : list jsstring
}.
End App.

(** [tasks[0]?.id || null] *)
Definition first_id (tasks : list Task.t) : option Z :=
  match tasks with
  | [] => None
  | t0 :: _ => if (Task.id t0 =? 0)%Z then None else Some (Task.id t0)
  end.

(** The state after the first render. *)
Definition initial_app : M App.t :=
  tasks <- seedTasks ;;
  ret (App.mk tasks (first_id tasks) team initial_messages [] []).

(** [filtered] *)
Definition filtered (view : View) (tasks : list Task.t) : list Task.t :=
  match view with
  | individual =>
      filter (fun t => jsstring_eqb (Task.user t) currentUser) tasks
  | team => tasks
  end.

Definition has_id (selectedId : option Z) (t : Task.t) : bool :=
  match selectedId with
  | Some i => (Task.id t =? i)%Z
  | None => false
  end.

(** [selected]: [tasks.find(t => t.id === selectedId) || filtered[0]] *)
Definition selected (a : App.t) : option Task.t :=
  match find (has_id (App.selectedId a)) (App.tasks a) with
  | Some t => Some t
  | None => hd_error (filtered (App.view a) (App.tasks a))
  end.

Definition count_status (st : Status) (l : list Task.t) : nat :=
  List.length (filter (fun t => Status_eqb (Task.status t) st) l).

(** [stats] *)
Module Stats.
Record t := mk { total : nat; running : nat; queued : nat; complete : nat }.
End Stats.

Definition stats (a : App.t) : Stats.t :=
  let shown := filtered (App.view a) (App.tasks a) in
  Stats.mk (List.length shown) (count_status running shown)
    (count_status queued shown) (count_status complete shown).

(** The "Add task" button; [value] is [input?.value]. *)
Definition onAddTask (value : option jsstring) (a : App.t) : M App.t :=
  let val := trim (or_str value []) in
  match val with
  | [] => ret a
  | _ :: _ =>
      t <- makeTask val (Some currentUser) None ;;
      ret (App.mk (t :: App.tasks a) (Some (Task.id t)) (App.view a)
             (App.messages a) (App.draft a) (App.replies_due a))
  end.

(** [sendMessage], up to the scheduling of the reply. *)
Definition sendMessage (a : App.t) : App.t :=
  let sent := trim (App.draft a) in
  match sent with
  | [] => a
  | _ :: _ =>
      App.mk (App.tasks a) (App.selectedId a) (App.view a)
        (App.messages a ++ [{| role := user; text := sent |}]) []
        (App.replies_due a ++ [sent])
  end.

Fixpoint remove_nth {A} (k : nat) (l : list A) : list A :=
  match l, k with
  | [], _ => []
  | _ :: l', O => l'
  | x :: l', S k' => x :: remove_nth k' l'
  end.

(** The callback of the [k]-th pending [setTimeout] of [sendMessage]: no
    order is imposed on the pending callbacks. *)
Definition onReplyDue (k : nat) (a : App.t) : App.t :=
  match nth_error (App.replies_due a) k with
  | None => a
  | Some sent =>
      App.mk (App.tasks a) (App.selectedId a) (App.view a)
        (App.messages a ++ [{| role := ai; text := planReply sent |}])
        (App.draft a) (remove_nth k (App.replies_due a))
  end.

(** The "Create task" button.  When [derivePipeline] throws, no state
    setter has run yet. *)
Definition onCreateTaskFromChat (a : App.t) : M App.t :=
  match createTaskFromChat (App.messages a) with
  | Throw _ => ret a
  | Normal make =>
      newTask <- make ;;
      ret (App.mk (newTask :: App.tasks a) (Some (Task.id newTask))
             (App.view a) (App.messages a) (App.draft a)
             (App.replies_due a))
  end.

(** The interval callback. *)
Definition onTick (a : App.t) : M App.t :=
  tasks <- tick (App.tasks a) ;;
  ret (App.mk tasks (App.selectedId a) (App.view a) (App.messages a)
         (App.draft a) (App.replies_due a)).

Inductive Event :=
| Tick
| AddTask (value : option jsstring)
| SetDraft (value : jsstring)
| SendMessage
| ReplyDue (k : nat)
| CreateTaskFromChat
| SetSelectedId (i : Z)
| SetView (v : View).

Definition handle (e : Event) (a : App.t) : M App.t :=
  match e with
  | Tick => onTick a
  | AddTask value => onAddTask value a
  | SetDraft value =>
      ret (App.mk (App.tasks a) (App.selectedId a) (App.view a)
             (App.messages a) value (App.replies_due a))
  | SendMessage => ret (sendMessage a)
  | ReplyDue k => ret (onReplyDue k a)
  | CreateTaskFromChat => onCreateTaskFromChat a
  | SetSelectedId i =>
      ret (App.mk (App.tasks a) (Some i) (App.view a) (App.messages a)
             (App.draft a) (App.replies_due a))
  | SetView v =>
      ret (App.mk (App.tasks a) (App.selectedId a) v (App.messages a)
             (App.draft a) (App.replies_due a))
  end.

(** A session: events handled one after the other. *)
Fixpoint run (events : list Event) (a : App.t) : M App.t :=
  match events with
  | [] => ret a
  | e :: more => a' <- handle e a ;; run more a'
  end.

Definition session (events : list Event) : M App.t :=
  a <- initial_app ;; run events a.

(** ** Vocabulary of the further properties *)

(** What a text field can hold: no line feed. *)
Definition one_line (s : jsstring) : Prop := ~ In 10%N s.

Definition typed_on_one_line (e : Event) : Prop :=
  match e with
  | SetDraft value => one_line value
  | _ => True
  end.

Definition status_rank (st : Status) : nat :=
  match st with queued => 0 | running => 1 | complete => 2 end.

Definition status_le (a b : Status) : Prop :=
  (status_rank a <= status_rank b)%nat.

Definition progress_le (p p' : option Q) : Prop :=
  match p, p' with
  | None, _ => True
  | Some q, Some q' => (q <= q')%Q
  | Some _, None => False
  end.

(** A step, respectively a task, one or more ticks later. *)
Definition step_later (s s' : Step.t) : Prop :=
  Step.name s' = Step.name s /\ Step.llm s' = Step.llm s
  /\ status_le (Step.status s) (Step.status s').

Definition task_later (t t' : Task.t) : Prop :=
  Task.id t' = Task.id t /\ Task.name t' = Task.name t
  /\ Task.user t' = Task.user t /\ Task.llm t' = Task.llm t
  /\ Task.startTime t' = Task.startTime t
  /\ status_le (Task.status t) (Task.status t')
  /\ (Task.status t = queued <-> Task.status t' = queued)
  /\ Forall2 step_later (Task.steps t) (Task.steps t').

Definition step_grown (s s' : Step.t) : Prop :=
  progress_le (Step.progress s) (Step.progress s').

Definition task_grown (t t' : Task.t) : Prop :=
  (Task.progress t <= Task.progress t')%Q
  /\ Forall2 step_grown (Task.steps t) (Task.steps t').

(** The shape every step and task of a session has. *)
Definition step_sound (s : Step.t) : Prop :=
  match Step.status s with
  | queued => Step.progress s = None /\ Step.duration s = None
  | running => step_in_range s
  | complete => Step.progress s = Some 100%Q
  end.

Definition task_sound (t : Task.t) : Prop :=
  in_range (Task.progress t)
  /\ (Task.status t = complete -> Task.progress t = 100%Q)
  /\ Task.name t <> []
  /\ Forall step_sound (Task.steps t).

(** A step as [derivePipeline] builds it, before the first is started. *)
Definition fresh_step (s : Step.t) : Prop :=
  Step.status s = queued /\ Step.progress s = None /\ Step.duration s = None.

Definition user_texts (l : list Message) : list jsstring :=
  map text (filter is_user l).

Definition is_ai (m : Message) : bool :=
  match role m with ai => true | user => false end.

Definition ai_texts (l : list Message) : list jsstring :=
  map text (filter is_ai l).

(** No white space at either end, and not empty. *)
Definition trimmed (s : jsstring) : Prop :=
  s <> []
  /\ (forall c r, s = c :: r -> is_white_space c = false)
  /\ (forall c r, s = r ++ [c] -> is_white_space c = false).

(** A message of a session after the greeting: written by the user, or a
    reply to a one-line text. *)
Definition chat_line (m : Message) : Prop :=
  role m = user
  \/ exists t, one_line t /\ m = {| role := ai; text := planReply t |}.

Definition chat_sound (a : App.t) : Prop :=
  (exists rest, App.messages a = initial_messages ++ rest
                /\ Forall chat_line rest)
  /\ Forall one_line (App.replies_due a)
  /\ one_line (App.draft a).

(** Identifiers are pairwise distinct and none is above the counter. *)
Definition ids_fresh (a : App.t) (w : World) : Prop :=
  (0 <= idCounter w)%Z
  /\ NoDup (map Task.id (App.tasks a))
  /\ Forall (fun t => (1 <= Task.id t <= idCounter w)%Z) (App.tasks a).

Definition session_sound (a : App.t) (w : World) : Prop :=
  unit_random w
  /\ Forall task_sound (App.tasks a)
  /\ Forall (fun m => role m = user -> text m <> []) (App.messages a).

(** The replies delivered so far answer user messages, one each. *)
Definition replies_match (a : App.t) : Prop :=
  (exists replied,
     Permutation (user_texts (App.messages a))
                 (replied ++ App.replies_due a)
     /\ ai_texts (App.messages a)
        = map text initial_messages ++ map planReply replied)
  /\ Forall trimmed (user_texts (App.messages a)).

(** Some task of the collection belongs to the current user. *)
Definition has_own_task (a : App.t) : Prop :=
  exists t, In t (App.tasks a) /\ Task.user t = currentUser.

Definition count_steps (st : Status) (l : list Step.t) : nat :=
  List.length (filter (fun s => Status_eqb (Step.status s) st) l).

(** The random numbers a tick draws for a task. *)
Definition draws_of (t : Task.t) (w : World) : nat :=
  match Task.status t with
  | running =>
      1 + count_steps running (Task.steps t)
      + (if Qltb 10 (min100 (incremented t w))
         then count_steps queued (Task.steps t) else 0)
  | _ => 0
  end.

(** The steps derived from [two_line_plan]. *)
Definition planned_steps_head : list Step.t :=
  [ Step.mk (lit "Ingest Inputs") running (lit "GPT-4") None None;
    Step.mk (lit "Plan & Branch") queued (lit "Claude Sonnet 4.5") None None ].

(** A sample session: a task is added, a message is typed and sent, the
    reply arrives, a task is created from the chat, and time passes. *)
Definition sample_session : list Event :=
  [ Tick; AddTask (Some (lit "  Audit Logs "));
    SetDraft (lit " Rotate the API keys "); SendMessage; Tick;
    ReplyDue 0; CreateTaskFromChat; Tick; Tick; SetView individual ].

(* ===================================================================== *)
(** * Properties *)
(* ===================================================================== *)

(** ** Sanity checks of the string model *)

Example lit_separator : dash_sep = [32%N; 8212%N; 32%N].
Proof. reflexivity. Qed.

Example split_twice :
  split dot_space (lit "1. a. b") = [lit "1"; lit "a"; lit "b"].
Proof. reflexivity. Qed.

Example split_trailing : split dot_space (lit "a. ") = [lit "a"; []].
Proof. reflexivity. Qed.

Example split_empty : split dot_space [] = [[]].
Proof. reflexivity. Qed.

Example trim_both : trim (lit "  Kimi K2 ") = lit "Kimi K2".
Proof. reflexivity. Qed.

Example test_number_dot_samples :
  test_number_dot (lit "12.x") = true /\ test_number_dot (lit " 1. x") = false
  /\ test_number_dot (lit "1 . x") = false /\ test_number_dot (lit ".") = false.
Proof. repeat split; reflexivity. Qed.

Example calcDuration_samples :
  fst (calcDuration 0 (sample_world 0)) = lit "16m 40s"
  /\ fst (calcDuration 999000 (sample_world 0)) = lit "1s"
  /\ fst (calcDuration 2000000 (sample_world 0)) = lit "0s".
Proof. repeat split; reflexivity. Qed.

(** ** [split] is repeated cutting at the leftmost separator *)

Lemma starts_with_nil (sep : jsstring) :
  sep <> [] -> starts_with sep [] = false.
Proof. destruct sep; [congruence | reflexivity]. Qed.

Lemma skipn_separator (sep : jsstring) (c : N) (s : jsstring) :
  sep <> [] ->
  skipn (List.length sep) (c :: s) = skipn (Nat.pred (List.length sep)) s.
Proof. destruct sep; [congruence | reflexivity]. Qed.

Lemma starts_with_app (p : jsstring) :
  forall s, starts_with p s = true -> s = p ++ skipn (List.length p) s.
Proof.
  induction p as [|x p IH]; intros s E; [reflexivity|].
  destruct s as [|y s]; [discriminate|]. simpl in E.
  apply andb_prop in E as [E1 E2]. apply N.eqb_eq in E1. subst y.
  simpl. f_equal. now apply IH.
Qed.

Section Split.

Variable sep : jsstring.
Hypothesis sep_nonempty : sep <> [].

Lemma split_go_skip (k : nat) :
  forall cur s, split_go sep k cur s = split_go sep 0 cur (skipn k s).
Proof.
  induction k as [|k IH]; intros cur s.
  - reflexivity.
  - destruct s as [|c s']; [reflexivity|]. simpl. apply IH.
Qed.

Lemma split_go_cut :
  forall s cur,
    split_go sep 0 cur s =
    match cut_at sep s with
    | None => [rev cur ++ s]
    | Some (a, b) => (rev cur ++ a) :: split_go sep 0 [] b
    end.
Proof.
  induction s as [|c s' IH]; intros cur.
  - cbn [split_go cut_at]. rewrite starts_with_nil by assumption.
    now rewrite app_nil_r.
  - cbn [split_go cut_at].
    destruct (starts_with sep (c :: s')) eqn:E.
    + rewrite app_nil_r, split_go_skip, skipn_separator by assumption.
      reflexivity.
    + rewrite IH. destruct (cut_at sep s') as [[a b]|]; simpl;
        now rewrite <- app_assoc.
Qed.

Lemma split_nonempty_sep (s : jsstring) : split sep s = split_go sep 0 [] s.
Proof. unfold split. destruct sep; [congruence | reflexivity]. Qed.

Lemma split_cut (s : jsstring) :
  split sep s =
  match cut_at sep s with
  | None => [s]
  | Some (a, b) => a :: split sep b
  end.
Proof.
  rewrite split_nonempty_sep, split_go_cut.
  destruct (cut_at sep s) as [[a b]|]; [|reflexivity].
  now rewrite split_nonempty_sep.
Qed.

Lemma cut_at_none (s : jsstring) :
  cut_at sep s = None <-> includes sep s = false.
Proof.
  induction s as [|c s' IH].
  - cbn [cut_at includes]. rewrite starts_with_nil by assumption.
    simpl. tauto.
  - cbn [cut_at includes]. destruct (starts_with sep (c :: s')).
    + simpl. split; discriminate.
    + simpl. destruct (cut_at sep s') as [[a b]|].
      * split; [discriminate|]. intros H. apply IH in H. discriminate.
      * tauto.
Qed.

(** A cut really is a decomposition of the string around the separator. *)
Lemma cut_at_some (s : jsstring) :
  forall a b, cut_at sep s = Some (a, b) ->
    s = a ++ sep ++ b /\ includes sep a = false.
Proof.
  induction s as [|c s' IH]; intros a b.
  - cbn [cut_at]. rewrite starts_with_nil by assumption. discriminate.
  - cbn [cut_at]. destruct (starts_with sep (c :: s')) eqn:E.
    + intros H. injection H as <- <-. split.
      * now apply starts_with_app.
      * cbn [includes]. rewrite starts_with_nil by assumption. reflexivity.
    + destruct (cut_at sep s') as [[a' b']|]; [|discriminate].
      intros H. injection H as <- <-.
      destruct (IH a' b' eq_refl) as [Hs Hi]. split.
      * simpl. now rewrite <- Hs.
      * cbn [includes]. rewrite Hi, orb_false_r.
        (* an occurrence at the head of [c :: a'] would be one in [c :: s'] *)
        destruct (starts_with sep (c :: a')) eqn:Ea; [|reflexivity].
        exfalso. apply starts_with_app in Ea.
        rewrite Hs in E.
        assert (F : forall p t, starts_with p (p ++ t) = true).
        { clear. induction p as [|x p IHp]; intros t; [reflexivity|].
          simpl. now rewrite N.eqb_refl, IHp. }
        change (c :: a' ++ sep ++ b') with ((c :: a') ++ sep ++ b') in E.
        rewrite Ea in E. rewrite <- app_assoc in E. rewrite F in E.
        discriminate.
Qed.

End Split.

(** ** The pipeline deriver *)

Lemma dot_space_nonempty : dot_space <> [].
Proof. discriminate. Qed.

Lemma dash_sep_nonempty : dash_sep <> [].
Proof. discriminate. Qed.

Lemma nl_nonempty : nl <> [].
Proof. discriminate. Qed.

Lemma take_drop_digits (l : jsstring) : l = take_digits l ++ drop_digits l.
Proof.
  induction l as [|c l IH]; [reflexivity|]. simpl.
  destruct (is_digit c); simpl; [now f_equal | reflexivity].
Qed.

Lemma take_digits_all (l : jsstring) : forallb is_digit (take_digits l) = true.
Proof.
  induction l as [|c l IH]; [reflexivity|]. simpl.
  destruct (is_digit c) eqn:E; simpl; [now rewrite E | reflexivity].
Qed.

Lemma digit_not_dot (c : N) : is_digit c = true -> (46 =? c)%N = false.
Proof.
  unfold is_digit. intros H. apply andb_prop in H as [H _].
  apply N.leb_le in H. apply N.eqb_neq. lia.
Qed.

Lemma cut_after_index (d r : jsstring) :
  forallb is_digit d = true ->
  cut_at dot_space (d ++ dot_space ++ r) = Some (d, r).
Proof.
  induction d as [|c d IH]; intros H.
  - reflexivity.
  - simpl in H. apply andb_prop in H as [Hc Hd].
    change (cut_at dot_space ((c :: d) ++ dot_space ++ r))
      with (if (46 =? c)%N && starts_with [32%N] (d ++ dot_space ++ r)
            then Some ([], skipn 2 (c :: d ++ dot_space ++ r))
            else match cut_at dot_space (d ++ dot_space ++ r) with
                 | Some (a, b) => Some (c :: a, b)
                 | None => None
                 end).
    rewrite (digit_not_dot _ Hc), IH by assumption. reflexivity.
Qed.

(** A numbered line with a space after the dot is its index, [". "] and
    its rest. *)
Lemma has_rest_shape (l : jsstring) :
  has_rest l = true -> l = take_digits l ++ dot_space ++ rest_of l.
Proof.
  unfold has_rest, rest_of. intros H. apply andb_prop in H as [_ H].
  apply starts_with_app in H.
  change (List.length dot_space) with 2%nat in H.
  rewrite <- H. apply take_drop_digits.
Qed.

Lemma parse_line_plain (l : jsstring) :
  plain_line l = true -> parse_line l = Normal (parsed_step (rest_of l)).
Proof.
  unfold plain_line. intros H. apply andb_prop in H as [Hr Hn].
  apply negb_true_iff in Hn. apply (cut_at_none dot_space dot_space_nonempty) in Hn.
  unfold parse_line.
  rewrite (has_rest_shape l Hr) at 1.
  change (lit ". ") with dot_space.
  rewrite (split_cut dot_space dot_space_nonempty),
    (cut_after_index _ _ (take_digits_all l)),
    (split_cut dot_space dot_space_nonempty), Hn.
  change (lit " — ") with dash_sep.
  rewrite (split_cut dash_sep dash_sep_nonempty). unfold parsed_step.
  destruct (cut_at dash_sep (rest_of l)) as [[n after]|]; [|reflexivity].
  rewrite (split_cut dash_sep dash_sep_nonempty).
  destruct (cut_at dash_sep after) as [[x y]|];
    [destruct x | destruct after]; reflexivity.
Qed.

(** A numbered line without [". "] makes the parse throw. *)
Lemma parse_line_throws (l : jsstring) :
  includes dot_space l = false -> parse_line l = Throw TypeError.
Proof.
  intros H. apply (cut_at_none dot_space dot_space_nonempty) in H.
  unfold parse_line. change (lit ". ") with dot_space.
  now rewrite (split_cut dot_space dot_space_nonempty), H.
Qed.

(** With [". "] in the line the parse returns. *)
Lemma parse_line_returns (l : jsstring) :
  includes dot_space l = true -> exists s, parse_line l = Normal s.
Proof.
  intros H. unfold parse_line. change (lit ". ") with dot_space.
  rewrite (split_cut dot_space dot_space_nonempty).
  destruct (cut_at dot_space l) as [[a b]|] eqn:E.
  - rewrite (split_cut dot_space dot_space_nonempty).
    assert (R : forall r, exists s,
      match split (lit " — ") r with
      | namePart :: more =>
          Normal (Step.mk (trim namePart) queued
                    (trim (or_str (hd_error more) (lit "GPT-4"))) None None)
      | [] => Throw TypeError
      end = Normal s).
    { intros r. change (lit " — ") with dash_sep.
      rewrite (split_cut dash_sep dash_sep_nonempty).
      destruct (cut_at dash_sep r) as [[n k]|]; eexists; reflexivity. }
    destruct (cut_at dot_space b) as [[b1 b2]|]; apply R.
  - apply (cut_at_none dot_space dot_space_nonempty) in E. congruence.
Qed.

Lemma cmap_normal {A B} (f : A -> completion B) (g : A -> B) (l : list A) :
  (forall x, In x l -> f x = Normal (g x)) -> cmap f l = Normal (map g l).
Proof.
  induction l as [|x l IH]; intros H; [reflexivity|].
  simpl. rewrite (H x (or_introl eq_refl)). simpl.
  rewrite IH by (intros y Hy; apply H; now right). reflexivity.
Qed.

Lemma find_rev_none {A} (p : A -> bool) (l : list A) :
  find p (rev l) = None <-> Forall (fun x => p x = false) l.
Proof.
  split.
  - intros H. apply Forall_forall. intros x Hx.
    apply (find_none p (rev l) H). now apply in_rev in Hx.
  - intros H. destruct (find p (rev l)) as [x|] eqn:E; [|reflexivity].
    apply find_some in E as [Hx Hp]. apply in_rev in Hx.
    rewrite Forall_forall in H. rewrite (H x Hx) in Hp. discriminate.
Qed.

(** What the selection really tests: [undefined] is returned exactly when
    no ai message has the two characters ["1."] anywhere in its text. *)
Lemma derivePipeline_none (messages : list Message) :
  derivePipeline messages = Normal None <->
  Forall (fun m => is_plan m = false) messages.
Proof.
  rewrite <- find_rev_none. unfold derivePipeline.
  destruct (find is_plan (rev messages)) as [m|]; [|tauto].
  split; [|discriminate].
  destruct (cmap parse_line _); discriminate.
Qed.

Lemma cmap_throw {A B} (f : A -> completion B) (l : list A) (x : A) :
  In x l -> f x = Throw TypeError -> cmap f l = Throw TypeError.
Proof.
  induction l as [|y l IH]; intros Hin Hx; [contradiction|].
  simpl. destruct (f y) as [b|[]] eqn:E; [|reflexivity].
  destruct Hin as [->|Hin]; [congruence|].
  simpl. now rewrite IH.
Qed.

(** Whenever the selected message has a numbered line without [". "], the
    call throws. *)
Lemma derivePipeline_throws (messages : list Message) (m : Message)
      (l : jsstring) :
  find is_plan (rev messages) = Some m ->
  In l (lines (text m)) -> test_number_dot l = true ->
  includes dot_space l = false ->
  derivePipeline messages = Throw TypeError.
Proof.
  intros Hsel Hin Ht Hn. unfold derivePipeline. rewrite Hsel.
  rewrite (cmap_throw parse_line _ l); [reflexivity | | ].
  - apply filter_In. now split.
  - now apply parse_line_throws.
Qed.

(** C1 (code defect).  The claim: a message is selected if and only if some
    line of its text begins with ["1."], and a message with ["1."] only
    inside a line is not selected.  The code tests [/1\./] without an anchor:
    an ai message with ["1."] in the middle of a line is selected.  Alone in
    the transcript it gives the empty step array instead of [undefined];
    placed after a genuine plan it hides that plan. *)
Theorem derivePipeline_selects_mid_line :
  derivePipeline [msg ai "See section 1.2 of the runbook"] = Normal (Some [])
  /\ derivePipeline [msg ai "1. Collect Data — Kimi K2";
                     msg user "which version?";
                     msg ai "Pinned to release 1.2 as asked"]
     = Normal (Some []).
Proof. split; reflexivity. Qed.

(** C2 (code defect).  The claim: [derivePipeline] never throws, also on a
    numbered line without [". "].  The code filters lines with [/^\d+\./]
    and then takes the second piece of [l.split('. ')]; on the line ["1.foo"]
    that piece is [undefined] and [rest.split] throws a TypeError.  The
    other half of the claim holds: a line without the label separator gets
    the default label. *)
Theorem derivePipeline_throws_without_space :
  derivePipeline [msg ai "1.foo"] = Throw TypeError
  /\ derivePipeline [msg ai "1. Collect Data"]
     = Normal (Some [Step.mk (lit "Collect Data") running (lit "GPT-4")
                       None None]).
Proof. split; reflexivity. Qed.

(** C6 (as stated, refuted).  On the line ["1. Build v2. Ship it — Kimi K2"]
    the sentence gives the name ["Build v2. Ship it"] and the label
    ["Kimi K2"]; the code keeps only the piece between the first and the
    second [". "], so the name is ["Build v2"] and the label the fallback.
    On the line ["1. Build v2 — "] the separator is present and the sentence
    gives an empty label; the code gives the fallback. *)
Lemma derivePipeline_not_as_stated :
  let cut := lit "1. Build v2. Ship it — Kimi K2" in
  let blank := lit "1. Build v2 — " in
  (stated_pipeline cut
     = [Step.mk (lit "Build v2. Ship it") running (lit "Kimi K2") None None]
   /\ derivePipeline [{| role := ai; text := cut |}]
     = Normal (Some [Step.mk (lit "Build v2") running (lit "GPT-4")
                       None None])
   /\ derivePipeline [{| role := ai; text := cut |}]
     <> Normal (Some (stated_pipeline cut)))
  /\ (stated_pipeline blank
      = [Step.mk (lit "Build v2") running [] None None]
    /\ derivePipeline [{| role := ai; text := blank |}]
      = Normal (Some [Step.mk (lit "Build v2") running (lit "GPT-4")
                        None None])
    /\ derivePipeline [{| role := ai; text := blank |}]
      <> Normal (Some (stated_pipeline blank))).
Proof.
  cbv zeta. split; (split; [reflexivity | split; [reflexivity|]]);
    intros H; vm_compute in H; discriminate H.
Qed.

(** C6 (amended).  From the selected ai message [derivePipeline] takes, in
    order, every line beginning with [<integer>.]; when each of them has the
    shape [<integer>. <rest>] with no further [". "] in [<rest>], the result
    is the list of their parsed steps: name the trimmed part of [<rest>]
    before the first [" — "], label the trimmed part after it (up to a second
    separator), or ["GPT-4"] when the separator is absent or that part is
    empty; every step queued with progress unset, then the first one set to
    running. *)
Theorem derivePipeline_plain (messages : list Message) (m : Message) :
  find is_plan (rev messages) = Some m ->
  (forall l, In l (lines (text m)) ->
             test_number_dot l = true -> plain_line l = true) ->
  derivePipeline messages =
  Normal (Some (first_running
                  (map (fun l => parsed_step (rest_of l))
                       (filter test_number_dot (lines (text m)))))).
Proof.
  intros Hsel Hplain. unfold derivePipeline. rewrite Hsel.
  rewrite (cmap_normal parse_line (fun l => parsed_step (rest_of l))).
  - reflexivity.
  - intros l Hl. apply filter_In in Hl as [Hin Ht].
    apply parse_line_plain. now apply Hplain.
Qed.

(** The two-line example of the specification, through the theorem. *)
Lemma derivePipeline_plain_witness :
  derivePipeline [msg user "Onboard the new vendor";
                  {| role := ai; text := two_line_plan |}]
  = Normal (Some
      [ Step.mk (lit "Ingest Inputs") running (lit "GPT-4") None None;
        Step.mk (lit "Plan & Branch") queued (lit "Claude Sonnet 4.5")
          None None ]).
Proof.
  refine (derivePipeline_plain
            [msg user "Onboard the new vendor";
             {| role := ai; text := two_line_plan |}]
            {| role := ai; text := two_line_plan |} eq_refl _).
  intros l Hl _. vm_compute in Hl.
  destruct Hl as [<-|[<-|[]]]; reflexivity.
Defined.

(** The one-line example: no separator, fallback label. *)
Example derivePipeline_no_separator :
  derivePipeline [msg ai "1. Collect Data"]
  = Normal (Some [Step.mk (lit "Collect Data") running fallback_llm
                    None None]).
Proof. reflexivity. Qed.

(** ** The reply planner and the round trip *)

Lemma reply_tail_rendered :
  lit "”:" ++ nl ++ nl
  ++ join nl
       (mapi_from 0%N
          (fun s i => of_N (i + 1) ++ lit ". " ++ fst s ++ lit " — " ++ snd s)
          base)
  ++ (nl ++ nl ++ lit "You can start as-is or ask me to adjust steps/LLMs.")
  = reply_tail.
Proof. vm_compute. reflexivity. Qed.

(** The reply is the fixed head, the description, and the fixed tail with
    the four numbered lines. *)
Lemma planReply_shape (t : jsstring) :
  planReply t = reply_head ++ t ++ reply_tail.
Proof.
  rewrite <- reply_tail_rendered. unfold planReply, reply_head.
  rewrite <- !app_assoc. reflexivity.
Qed.

Lemma includes_app_r (p a b : jsstring) :
  includes p b = true -> includes p (a ++ b) = true.
Proof.
  intros H. induction a as [|c a IH]; [assumption|].
  change ((c :: a) ++ b) with (c :: (a ++ b)).
  cbn [includes]. rewrite IH. apply orb_true_r.
Qed.

Lemma planReply_is_plan (t : jsstring) :
  is_plan {| role := ai; text := planReply t |} = true.
Proof.
  unfold is_plan. cbn [role text]. rewrite planReply_shape.
  do 2 apply includes_app_r. vm_compute. reflexivity.
Qed.

Lemma split_go_nl_cur (s cur : jsstring) :
  split_go nl 0 cur s = (rev cur ++ hd [] (lines s)) :: tl (lines s).
Proof.
  unfold lines.
  rewrite (split_go_cut nl nl_nonempty), (split_cut nl nl_nonempty s).
  destruct (cut_at nl s) as [[a b]|]; reflexivity.
Qed.

Lemma split_go_nl_nonempty (s cur : jsstring) : split_go nl 0 cur s <> [].
Proof. rewrite split_go_nl_cur. discriminate. Qed.

Lemma split_go_nl_step (c : N) (cur s : jsstring) :
  split_go nl 0 cur (c :: s) =
  if (10 =? c)%N then rev cur :: split_go nl 0 [] s
  else split_go nl 0 (c :: cur) s.
Proof.
  destruct (N.eqb_spec 10 c) as [<-|Hc]; [reflexivity|].
  apply N.eqb_neq in Hc.
  change (split_go nl 0 cur (c :: s))
    with (if (10 =? c)%N && true then rev cur :: split_go nl 0 [] s
          else split_go nl 0 (c :: cur) s).
  now rewrite Hc.
Qed.

(** Lines of a concatenation: the last line of the left part continues
    into the first line of the right part. *)
Lemma split_go_nl_app (a b : jsstring) :
  forall cur,
    split_go nl 0 cur (a ++ b) =
    removelast (split_go nl 0 cur a)
    ++ split_go nl 0 (rev (last (split_go nl 0 cur a) [])) b.
Proof.
  induction a as [|c a IH]; intros cur.
  - simpl. now rewrite rev_involutive.
  - change ((c :: a) ++ b) with (c :: (a ++ b)).
    rewrite !split_go_nl_step. destruct (10 =? c)%N.
    + rewrite IH.
      pose proof (split_go_nl_nonempty a []) as Hne.
      destruct (split_go nl 0 [] a) as [|x xs]; [congruence|]. reflexivity.
    + apply IH.
Qed.

Lemma test_number_dot_cons (c : N) (s : jsstring) :
  test_number_dot (c :: s) = is_digit c && starts_with [46%N] (drop_digits s).
Proof. reflexivity. Qed.

(** Appending text that starts with neither a digit nor a dot does not
    change whether a line is numbered. *)
Lemma test_number_dot_app (l r : jsstring) (x : N) :
  is_digit x = false -> (46 =? x)%N = false ->
  test_number_dot (l ++ x :: r) = test_number_dot l.
Proof.
  intros Hd Hp. destruct l as [|c l].
  - change ([] ++ x :: r) with (x :: r).
    rewrite test_number_dot_cons, Hd. reflexivity.
  - change ((c :: l) ++ x :: r) with (c :: (l ++ x :: r)).
    rewrite !test_number_dot_cons. f_equal.
    induction l as [|d l IH].
    + cbn [app drop_digits]. rewrite Hd.
      change (starts_with [46%N] (x :: r))
        with ((46 =? x)%N && starts_with [] r).
      now rewrite Hp.
    + cbn [app drop_digits]. destruct (is_digit d); [apply IH | reflexivity].
Qed.

Lemma filter_none {A} (p : A -> bool) (l : list A) :
  (forall x, In x l -> p x = false) -> filter p l = [].
Proof.
  induction l as [|x l IH]; intros H; [reflexivity|].
  simpl. rewrite (H x (or_introl eq_refl)). apply IH.
  intros y Hy. apply H. now right.
Qed.

Lemma in_removelast {A} (l : list A) (x : A) :
  In x (removelast l) -> In x l.
Proof.
  induction l as [|y l IH]; [contradiction|].
  simpl. destruct l as [|z l]; [contradiction|].
  intros [->|H]; [now left | right; now apply IH].
Qed.

Lemma in_last {A} (l : list A) (d : A) : l <> [] -> In (last l d) l.
Proof.
  induction l as [|y l IH]; [congruence|]. intros _.
  destruct l as [|z l]; [now left|].
  right. apply IH. discriminate.
Qed.

Lemma reply_head_one_line : split_go nl 0 [] reply_head = [reply_head].
Proof. vm_compute. reflexivity. Qed.

Lemma reply_tail_lines :
  lines reply_tail =
  [ lit "”:"; [];
    lit "1. Ingest Inputs — GPT-4";
    lit "2. Plan & Branch — Claude Sonnet 4.5";
    lit "3. Execute Tools — Kimi K2";
    lit "4. Verify & Report — GPT-4";
    []; lit "You can start as-is or ask me to adjust steps/LLMs." ].
Proof. vm_compute. reflexivity. Qed.

(** The lines of a reply: those of the description, the first prefixed by
    the head and the last followed by the closing quote and colon, then the
    fixed lines of the tail. *)
Lemma lines_planReply (t : jsstring) :
  lines (planReply t) =
  removelast ((reply_head ++ hd [] (lines t)) :: tl (lines t))
  ++ (last ((reply_head ++ hd [] (lines t)) :: tl (lines t)) [] ++ lit "”:")
     :: tl (lines reply_tail).
Proof.
  set (own := (reply_head ++ hd [] (lines t)) :: tl (lines t)).
  unfold lines at 1.
  rewrite (split_nonempty_sep nl nl_nonempty), planReply_shape.
  rewrite split_go_nl_app, reply_head_one_line.
  cbn [removelast last app].
  rewrite split_go_nl_app, (split_go_nl_cur t).
  rewrite rev_involutive. fold own.
  rewrite (split_go_nl_cur reply_tail), rev_involutive, reply_tail_lines.
  reflexivity.
Qed.

Lemma reply_head_not_numbered (s : jsstring) :
  test_number_dot (reply_head ++ s) = false.
Proof. reflexivity. Qed.

Lemma numbered_lines_planReply (t : jsstring) :
  no_numbered_continuation t ->
  filter test_number_dot (lines (planReply t)) =
  [ lit "1. Ingest Inputs — GPT-4";
    lit "2. Plan & Branch — Claude Sonnet 4.5";
    lit "3. Execute Tools — Kimi K2";
    lit "4. Verify & Report — GPT-4" ].
Proof.
  unfold no_numbered_continuation. rewrite Forall_forall. intros H.
  rewrite lines_planReply.
  set (own := (reply_head ++ hd [] (lines t)) :: tl (lines t)).
  assert (Hown : forall l, In l own -> test_number_dot l = false).
  { intros l [<-|Hl]; [apply reply_head_not_numbered | now apply H]. }
  rewrite filter_app.
  match goal with
  | |- ?early ++ _ = _ => assert (E : early = [])
  end.
  { apply filter_none. intros l Hl. apply Hown. now apply in_removelast. }
  rewrite E. cbn [app filter].
  change (lit "”:") with (8221%N :: [58%N]).
  rewrite test_number_dot_app by reflexivity.
  rewrite (Hown (last own [])) by (apply in_last; discriminate).
  rewrite reply_tail_lines. vm_compute. reflexivity.
Qed.

Lemma single_line (t : jsstring) : ~ In 10%N t -> lines t = [t].
Proof.
  intros H. unfold lines.
  rewrite (split_cut nl nl_nonempty t).
  assert (E : cut_at nl t = None).
  { induction t as [|c t IH]; [reflexivity|].
    change (cut_at nl (c :: t))
      with (if (10 =? c)%N && true then Some ([], skipn 1 (c :: t))
            else match cut_at nl t with
                 | Some (a, b) => Some (c :: a, b)
                 | None => None
                 end).
    destruct (N.eqb_spec 10 c) as [<-|_].
    - exfalso. apply H. now left.
    - rewrite IH; [reflexivity|]. intros Hin. apply H. now right. }
  now rewrite E.
Qed.

(** A description typed on one line qualifies. *)
Lemma single_line_no_continuation (t : jsstring) :
  ~ In 10%N t -> no_numbered_continuation t.
Proof.
  intros H. unfold no_numbered_continuation.
  rewrite (single_line t H). constructor.
Qed.

(** C7 (as stated, refuted).  A description with a second line that begins
    with a number and a dot adds that line to the derived steps. *)
Lemma planReply_roundtrip_not_for_all_text :
  derivePipeline
    [{| role := ai;
        text := planReply (lit "Rotate keys" ++ nl ++ lit "9. then page me") |}]
  <> Normal (Some planned_steps).
Proof. intros H. vm_compute in H. discriminate H. Qed.

Lemma find_skip_users (later : list Message) (rest : list Message) :
  Forall (fun m => role m = user) later ->
  find is_plan (rev later ++ rest) = find is_plan rest.
Proof.
  intros H. apply Forall_rev in H. induction H as [|m l Hm _ IH]; [reflexivity|].
  cbn [app find]. unfold is_plan at 1. now rewrite Hm.
Qed.

(** C7 (amended).  For every description in which no line after the first
    begins with digits followed by a dot (every one-line description is
    such), [planReply] is the fixed head, the description and the fixed tail
    holding the four numbered lines, and [derivePipeline] on any transcript
    whose most recent ai message is that reply returns exactly the four
    steps in order, the first running and the other three queued. *)
Theorem planReply_roundtrip (earlier later : list Message) (t : jsstring) :
  no_numbered_continuation t ->
  Forall (fun m => role m = user) later ->
  planReply t = reply_head ++ t ++ reply_tail
  /\ derivePipeline
       (earlier ++ {| role := ai; text := planReply t |} :: later)
     = Normal (Some planned_steps).
Proof.
  intros H Hlater. split; [apply planReply_shape|].
  unfold derivePipeline.
  rewrite rev_app_distr. cbn [rev]. rewrite <- app_assoc.
  rewrite (find_skip_users later _ Hlater). cbn [app find].
  rewrite planReply_is_plan. cbn [text]. fold (lines (planReply t)).
  rewrite (numbered_lines_planReply t H). vm_compute. reflexivity.
Qed.

Lemma planReply_roundtrip_witness :
  planReply (lit "Audit Logs") = reply_head ++ lit "Audit Logs" ++ reply_tail
  /\ derivePipeline
       ((initial_messages ++ [msg user "Audit Logs"])
        ++ {| role := ai; text := planReply (lit "Audit Logs") |}
        :: [msg user "looks good"])
     = Normal (Some planned_steps).
Proof.
  apply (planReply_roundtrip
           (initial_messages ++ [msg user "Audit Logs"])
           [msg user "looks good"] (lit "Audit Logs")).
  - apply single_line_no_continuation. vm_compute.
    intros H. repeat (destruct H as [H|H]; [discriminate H|]). exact H.
  - repeat constructor.
Defined.

(** ** The effect monad *)

Lemma bind_run {A B} (c : M A) (k : A -> M B) (w : World) :
  bind c k w = k (fst (c w)) (snd (c w)).
Proof. unfold bind. destruct (c w). reflexivity. Qed.

Create HintDb frame discriminated.

Lemma keeps_random_ret {A} (a : A) : keeps_random (ret a).
Proof. intros w. reflexivity. Qed.

Lemma keeps_random_bind {A B} (c : M A) (k : A -> M B) :
  keeps_random c -> (forall a, keeps_random (k a)) -> keeps_random (bind c k).
Proof. intros Hc Hk w. rewrite bind_run, Hk. apply Hc. Qed.

Lemma keeps_random_Math_random : keeps_random Math_random.
Proof. intros w. reflexivity. Qed.

Lemma keeps_random_Date_now : keeps_random Date_now.
Proof. intros w. reflexivity. Qed.

Lemma keeps_random_next_id : keeps_random next_id.
Proof. intros w. reflexivity. Qed.

Lemma keeps_counter_ret {A} (a : A) : keeps_counter (ret a).
Proof. intros w. reflexivity. Qed.

Lemma keeps_counter_bind {A B} (c : M A) (k : A -> M B) :
  keeps_counter c -> (forall a, keeps_counter (k a)) ->
  keeps_counter (bind c k).
Proof. intros Hc Hk w. rewrite bind_run, Hk. apply Hc. Qed.

Lemma keeps_counter_Math_random : keeps_counter Math_random.
Proof. intros w. reflexivity. Qed.

Lemma keeps_counter_Date_now : keeps_counter Date_now.
Proof. intros w. reflexivity. Qed.

#[export] Hint Resolve keeps_random_ret keeps_random_Math_random
  keeps_random_Date_now keeps_random_next_id keeps_counter_ret
  keeps_counter_Math_random keeps_counter_Date_now : frame.

(** Splits a framing goal along the binds and branches of the code. *)
Ltac frame_step :=
  match goal with
  | |- keeps_random (bind _ _) => apply keeps_random_bind; [|intros ?]
  | |- keeps_counter (bind _ _) => apply keeps_counter_bind; [|intros ?]
  | |- context [if ?b then _ else _] => destruct b
  | |- context [match Step.status ?s with _ => _ end] =>
      destruct (Step.status s)
  | |- context [match Task.status ?t with _ => _ end] =>
      destruct (Task.status t)
  end.

Ltac frame := repeat frame_step; auto with frame.

Lemma keeps_random_mmap {A B} (f : A -> M B) (l : list A) :
  (forall a, keeps_random (f a)) -> keeps_random (mmap f l).
Proof. intros Hf. induction l as [|x l IH]; cbn [mmap]; frame. Qed.

Lemma keeps_counter_mmap {A B} (f : A -> M B) (l : list A) :
  (forall a, keeps_counter (f a)) -> keeps_counter (mmap f l).
Proof. intros Hf. induction l as [|x l IH]; cbn [mmap]; frame. Qed.

Lemma keeps_random_calcDuration (start : Z) : keeps_random (calcDuration start).
Proof. unfold calcDuration. frame. Qed.

Lemma keeps_counter_calcDuration (start : Z) :
  keeps_counter (calcDuration start).
Proof. unfold calcDuration. frame. Qed.

#[export] Hint Resolve keeps_random_calcDuration keeps_counter_calcDuration
  : frame.

Lemma keeps_random_tick_step (start : Z) (p : Q) (s : Step.t) :
  keeps_random (tick_step start p s).
Proof. unfold tick_step. frame. Qed.

Lemma keeps_counter_tick_step (start : Z) (p : Q) (s : Step.t) :
  keeps_counter (tick_step start p s).
Proof. unfold tick_step. frame. Qed.

Lemma keeps_random_tick_task (t : Task.t) : keeps_random (tick_task t).
Proof.
  unfold tick_task. frame.
  apply keeps_random_mmap. intros s. apply keeps_random_tick_step.
Qed.

Lemma keeps_counter_tick_task (t : Task.t) : keeps_counter (tick_task t).
Proof.
  unfold tick_task. frame.
  apply keeps_counter_mmap. intros s. apply keeps_counter_tick_step.
Qed.

Lemma keeps_random_tick (l : list Task.t) : keeps_random (tick l).
Proof. apply keeps_random_mmap, keeps_random_tick_task. Qed.

Lemma keeps_counter_tick (l : list Task.t) : keeps_counter (tick l).
Proof. apply keeps_counter_mmap, keeps_counter_tick_task. Qed.

Lemma keeps_counter_ticks (n : nat) :
  forall l, keeps_counter (ticks n l).
Proof.
  induction n as [|n IH]; intros l; cbn [ticks]; frame.
  apply keeps_counter_tick.
Qed.

Lemma unit_random_kept {A} (c : M A) (w : World) :
  keeps_random c -> unit_random w -> unit_random (snd (c w)).
Proof. intros Hc Hw n. rewrite Hc. apply Hw. Qed.

(** ** The task factory, unfolded *)

Lemma makeTask_run (name : jsstring) (user : option jsstring)
      (steps : option (list Step.t)) (w : World) :
  let pipeline := match steps with Some a => a | None => default_pipeline end in
  makeTask name user steps w =
  (Task.mk (idCounter w + 1) name running 5%Q (or_str user (lit "You"))
     (or_str (option_map Step.llm (find is_running pipeline)) (lit "GPT-4"))
     (clock_src w (clock_calls w)) (Some (lit "0s")) pipeline,
   {| random_src := random_src w; random_calls := random_calls w;
      clock_src := clock_src w; clock_calls := S (clock_calls w);
      idCounter := (idCounter w + 1)%Z |}).
Proof. reflexivity. Qed.

(** ** The simulation tick *)

Lemma Qltb_lt (a b : Q) : Qltb a b = true <-> (a < b)%Q.
Proof.
  unfold Qltb. rewrite negb_true_iff, <- not_true_iff_false, Qle_bool_iff.
  split; [apply Qnot_le_lt | apply Qlt_not_le].
Qed.

Lemma Qle_bool_false (a b : Q) : Qle_bool a b = false <-> (b < a)%Q.
Proof.
  rewrite <- not_true_iff_false, Qle_bool_iff.
  split; [apply Qnot_le_lt | apply Qlt_not_le].
Qed.

Lemma min100_spec (x : Q) :
  ((100 <= x)%Q /\ min100 x = 100%Q) \/ ((x < 100)%Q /\ min100 x = x).
Proof.
  unfold min100. destruct (Qle_bool 100 x) eqn:E.
  - left. split; [now apply Qle_bool_iff | reflexivity].
  - right. split; [now apply Qle_bool_false | reflexivity].
Qed.

Lemma min100_in_range (x : Q) : (0 <= x)%Q -> in_range (min100 x).
Proof.
  intros H. unfold in_range.
  destruct (min100_spec x) as [[_ ->]|[Hx ->]]; lra.
Qed.

Lemma reached_100_min100 (x : Q) : Qle_bool 100 (min100 x) = Qle_bool 100 x.
Proof.
  unfold min100. destruct (Qle_bool 100 x) eqn:E; [reflexivity | exact E].
Qed.

Lemma or_num_in_range (p : option Q) (d : Q) :
  in_range d ->
  match p with Some q => in_range q | None => True end ->
  in_range (or_num p d).
Proof.
  intros Hd Hp. destruct p as [q|]; [|exact Hd].
  simpl. destruct (Qeq_bool q 0); assumption.
Qed.

Lemma mmap_preserves {A B} (f : A -> M B) (I : World -> Prop)
      (P : A -> Prop) (R : B -> Prop) :
  (forall a w, I w -> P a -> R (fst (f a w)) /\ I (snd (f a w))) ->
  forall l w, I w -> Forall P l ->
    Forall R (fst (mmap f l w)) /\ I (snd (mmap f l w)).
Proof.
  intros Hf. induction l as [|x l IH]; intros w Hw Hl.
  - split; [constructor | exact Hw].
  - inversion Hl as [|? ? Hx Hl']; subst.
    cbn [mmap]. rewrite !bind_run. cbn [ret fst snd].
    destruct (Hf x w Hw Hx) as [Hy Hw'].
    destruct (IH _ Hw' Hl') as [Hys Hw''].
    split; [now constructor | exact Hw''].
Qed.

Lemma mmap_Forall2 {A B} (f : A -> M B) (I : World -> Prop)
      (P : A -> Prop) (R : A -> B -> Prop) :
  (forall a w, I w -> P a -> R a (fst (f a w)) /\ I (snd (f a w))) ->
  forall l w, I w -> Forall P l ->
    Forall2 R l (fst (mmap f l w)) /\ I (snd (mmap f l w)).
Proof.
  intros Hf. induction l as [|x l IH]; intros w Hw Hl.
  - split; [constructor | exact Hw].
  - inversion Hl as [|? ? Hx Hl']; subst.
    cbn [mmap]. rewrite !bind_run. cbn [ret fst snd].
    destruct (Hf x w Hw Hx) as [Hy Hw'].
    destruct (IH _ Hw' Hl') as [Hys Hw''].
    split; [now constructor | exact Hw''].
Qed.

(** The element at a position is the image of the element that was there,
    computed in some intermediate world. *)
Lemma mmap_nth {A B} (f : A -> M B) :
  forall l w i x, nth_error l i = Some x ->
    exists w', nth_error (fst (mmap f l w)) i = Some (fst (f x w')).
Proof.
  induction l as [|y l IH]; intros w i x Hi.
  - destruct i; discriminate.
  - cbn [mmap]. rewrite !bind_run. cbn [ret fst snd].
    destruct i as [|i].
    + injection Hi as ->. now exists w.
    + apply (IH (snd (f y w)) i x Hi).
Qed.


Lemma tick_task_not_running (t : Task.t) (w : World) :
  Task.status t <> running -> tick_task t w = (t, w).
Proof.
  intros H. unfold tick_task. destruct (Task.status t); [| congruence |];
    reflexivity.
Qed.

(** C4.  A task whose status is not running is returned by a tick exactly
    as it was, and the tick reads neither the random source nor the clock
    for it; so it is the same task after any number of ticks, alone or at
    its position in a collection of tasks: a complete task keeps its status
    and its progress for ever. *)
Theorem tick_skips_not_running (t : Task.t) :
  Task.status t <> running ->
  (forall w, tick_task t w = (t, w))
  /\ (forall n w, ticks_task n t w = (t, w))
  /\ (forall n tasks w i,
        nth_error tasks i = Some t ->
        nth_error (fst (ticks n tasks w)) i = Some t).
Proof.
  intros H. split; [|split].
  - intros w. now apply tick_task_not_running.
  - induction n as [|n IH]; intros w; [reflexivity|].
    cbn [ticks_task]. rewrite bind_run, tick_task_not_running by assumption.
    apply IH.
  - induction n as [|n IH]; intros tasks w i Hi; [exact Hi|].
    cbn [ticks]. rewrite bind_run. apply IH.
    destruct (mmap_nth tick_task tasks w i t Hi) as [w' Hw'].
    unfold tick. rewrite Hw', tick_task_not_running by assumption.
    reflexivity.
Qed.

Lemma tick_skips_not_running_witness :
  let t := seed_t3 1000000 in
  (forall w, tick_task t w = (t, w))
  /\ (forall n w, ticks_task n t w = (t, w))
  /\ (forall n tasks w i,
        nth_error tasks i = Some t ->
        nth_error (fst (ticks n tasks w)) i = Some t).
Proof.
  apply (tick_skips_not_running (seed_t3 1000000)). discriminate.
Defined.

(** The value of a tick on a running task, spelled out. *)
Lemma tick_task_running (t : Task.t) (w : World) :
  Task.status t = running ->
  let p := min100 (incremented t w) in
  let sw := mmap (tick_step (Task.startTime t) p) (Task.steps t)
                 (snd (Math_random w)) in
  let done := forallb is_complete (fst sw) || Qle_bool 100 p in
  let dw := calcDuration (Task.startTime t) (snd sw) in
  tick_task t w =
  (Task.mk (Task.id t) (Task.name t)
     (if done then complete else running) (if done then 100%Q else p)
     (Task.user t) (Task.llm t) (Task.startTime t) (Some (fst dw)) (fst sw),
   snd dw).
Proof.
  intros H. unfold tick_task. rewrite H. rewrite !bind_run.
  cbn [ret Math_random fst snd]. reflexivity.
Qed.


Lemma tick_step_complete (start : Z) (p : Q) (s : Step.t) (w : World) :
  Step.status s = complete -> tick_step start p s w = (s, w).
Proof. intros H. unfold tick_step. now rewrite H. Qed.




(** The example of the specification: at progress 97 an increment of 3 or
    more lands on 100 and the task is complete in that same tick. *)
Example tick_from_97 :
  let t := Task.mk 7 (lit "Audit Logs") running 97%Q (lit "You") (lit "GPT-4")
             0 (Some (lit "0s")) default_pipeline in
  let t' := fst (tick_task t (sample_world (1 # 2))) in
  Task.progress t' = 100%Q /\ Task.status t' = complete.
Proof. split; reflexivity. Qed.

Lemma tick_step_running (start : Z) (p : Q) (s : Step.t) (w : World) :
  Step.status s = running ->
  let sp := min100 (or_num (Step.progress s) 0
                    + random_src w (random_calls w) * 10)%Q in
  fst (tick_step start p s w) =
  Step.mk (Step.name s) (if Qle_bool 100 sp then complete else running)
    (Step.llm s) (Some sp)
    (Some (fst (calcDuration start (snd (Math_random w))))).
Proof.
  intros H. unfold tick_step. rewrite H, !bind_run. reflexivity.
Qed.

Lemma tick_step_queued (start : Z) (p : Q) (s : Step.t) (w : World) :
  Step.status s = queued ->
  tick_step start p s w =
  if Qltb 10 p then
    if Qltb (7 # 10) (random_src w (random_calls w)) then
      (Step.mk (Step.name s) running (Step.llm s)
         (Some (seed_of (Step.progress s)))
         (Some (fst (calcDuration start (snd (Math_random w))))),
       snd (calcDuration start (snd (Math_random w))))
    else (s, snd (Math_random w))
  else (s, w).
Proof.
  intros H. unfold tick_step. rewrite H.
  destruct (Qltb 10 p); [|reflexivity].
  rewrite bind_run. cbn [Math_random fst snd].
  destruct (Qltb (7 # 10) (random_src w (random_calls w))); [|reflexivity].
  rewrite bind_run. reflexivity.
Qed.

Lemma tick_step_in_range (start : Z) (p : Q) (s : Step.t) (w : World) :
  unit_random w -> step_in_range s ->
  step_in_range (fst (tick_step start p s w))
  /\ unit_random (snd (tick_step start p s w)).
Proof.
  intros Hw Hs. split;
    [|apply unit_random_kept; [apply keeps_random_tick_step | exact Hw]].
  destruct (Step.status s) eqn:E.
  - rewrite (tick_step_queued start p s w E).
    destruct (Qltb 10 p); [|exact Hs].
    destruct (Qltb (7 # 10) _); [|exact Hs].
    cbn [fst]. unfold step_in_range. cbn [Step.progress].
    apply (or_num_in_range (Step.progress s) 5); [|exact Hs].
    unfold in_range. lra.
  - rewrite (tick_step_running start p s w E). cbv zeta.
    unfold step_in_range. cbn [Step.progress].
    apply min100_in_range.
    pose proof (or_num_in_range (Step.progress s) 0) as Ho.
    destruct Ho as [Ho _]; [unfold in_range; lra | exact Hs |].
    destruct (Hw (random_calls w)) as [Hr _]. lra.
  - now rewrite (tick_step_complete start p s w E).
Qed.

Lemma tick_task_in_range (t : Task.t) (w : World) :
  unit_random w -> task_in_range t ->
  task_in_range (fst (tick_task t w)) /\ unit_random (snd (tick_task t w)).
Proof.
  intros Hw [Hp Hs]. split;
    [|apply unit_random_kept; [apply keeps_random_tick_task | exact Hw]].
  destruct (Task.status t) eqn:E;
    try (rewrite tick_task_not_running by congruence; now split).
  rewrite (tick_task_running t w E). cbv zeta. cbn [fst].
  unfold task_in_range. cbn [Task.progress Task.steps]. split.
  - destruct (_ || _).
    + unfold in_range. lra.
    + apply min100_in_range. unfold incremented.
      destruct Hp as [Hp _]. destruct (Hw (random_calls w)) as [Hr _]. lra.
  - apply (mmap_preserves (tick_step (Task.startTime t)
                             (min100 (incremented t w)))
             unit_random step_in_range step_in_range).
    + intros a w' Hw' Ha. now apply tick_step_in_range.
    + apply (unit_random_kept Math_random w keeps_random_Math_random Hw).
    + exact Hs.
Qed.

Lemma ticks_in_range (n : nat) :
  forall tasks w, unit_random w -> Forall task_in_range tasks ->
    Forall task_in_range (fst (ticks n tasks w)).
Proof.
  induction n as [|n IH]; intros tasks w Hw Ht; [exact Ht|].
  cbn [ticks]. rewrite bind_run.
  destruct (mmap_preserves tick_task unit_random task_in_range task_in_range
              (fun a w' Hw' Ha => tick_task_in_range a w' Hw' Ha)
              tasks w Hw Ht) as [Ht' Hw'].
  now apply IH.
Qed.

Lemma calcDuration_random_calls (start : Z) (w : World) :
  random_calls (snd (calcDuration start w)) = random_calls w.
Proof.
  unfold calcDuration. rewrite bind_run. cbn [Date_now fst snd].
  destruct (_ <? 60)%Z; reflexivity.
Qed.

Lemma tick_step_draws (start : Z) (p : Q) (s : Step.t) (w : World) :
  random_calls (snd (tick_step start p s w))
  = (random_calls w
     + match Step.status s with
       | running => 1
       | queued => if Qltb 10 p then 1 else 0
       | complete => 0
       end)%nat.
Proof.
  unfold tick_step. destruct (Step.status s).
  - destruct (Qltb 10 p); [|cbn [ret snd]; lia].
    rewrite bind_run. cbn [Math_random fst].
    destruct (Qltb (7 # 10) _).
    + rewrite bind_run. cbn [ret snd]. rewrite calcDuration_random_calls.
      cbn [Math_random snd random_calls]. lia.
    + cbn [ret snd Math_random random_calls]. lia.
  - rewrite !bind_run. cbn [ret snd]. rewrite calcDuration_random_calls.
    cbn [Math_random snd random_calls]. lia.
  - cbn [ret snd]. lia.
Qed.

Lemma steps_draws (start : Z) (p : Q) (l : list Step.t) :
  forall w,
    random_calls (snd (mmap (tick_step start p) l w))
    = (random_calls w + count_steps running l
       + (if Qltb 10 p then count_steps queued l else 0))%nat.
Proof.
  unfold count_steps.
  induction l as [|s l IH]; intros w.
  - cbn. destruct (Qltb 10 p); lia.
  - cbn [mmap]. rewrite !bind_run. cbn [ret snd]. rewrite IH, tick_step_draws.
    cbn [filter]. destruct (Step.status s), (Qltb 10 p); cbn; lia.
Qed.

Lemma mmap_app {A B} (f : A -> M B) (l1 l2 : list A) :
  forall w,
    mmap f (l1 ++ l2) w
    = (fst (mmap f l1 w) ++ fst (mmap f l2 (snd (mmap f l1 w))),
       snd (mmap f l2 (snd (mmap f l1 w)))).
Proof.
  induction l1 as [|x l1 IH]; intros w.
  - cbn [app mmap ret fst snd]. now destruct (mmap f l2 w).
  - cbn [app mmap]. rewrite !bind_run, IH. cbn [ret fst snd]. reflexivity.
Qed.

Lemma mmap_length {A B} (f : A -> M B) (l : list A) :
  forall w, List.length (fst (mmap f l w)) = List.length l.
Proof.
  induction l as [|x l IH]; intros w; [reflexivity|].
  cbn [mmap]. rewrite !bind_run. cbn [ret fst List.length]. now rewrite IH.
Qed.

(** The step a tick puts at a position where a running step was, with the
    index of the random number it used. *)
Lemma tick_task_step_at (t : Task.t) (w : World)
      (pre : list Step.t) (s : Step.t) (post : list Step.t) :
  Task.status t = running ->
  Task.steps t = pre ++ s :: post -> Step.status s = running ->
  let p := min100 (Task.progress t + random_src w (random_calls w) * 6) in
  let k := (random_calls w + 1 + count_steps running pre
            + (if Qltb 10 p then count_steps queued pre else 0))%nat in
  let sp := min100 (or_num (Step.progress s) 0 + random_src w k * 10) in
  exists s',
    nth_error (Task.steps (fst (tick_task t w))) (List.length pre) = Some s'
    /\ Step.progress s' = Some sp
    /\ Step.status s' = (if Qle_bool 100 sp then complete else running)
    /\ Step.name s' = Step.name s /\ Step.llm s' = Step.llm s.
Proof.
  intros Ht Hsteps Hs. cbv zeta.
  rewrite (tick_task_running t w Ht). cbv zeta. cbn [fst Task.steps].
  unfold incremented. rewrite Hsteps.
  set (p := min100 (Task.progress t + random_src w (random_calls w) * 6)).
  set (f := tick_step (Task.startTime t) p).
  rewrite mmap_app. cbn [fst].
  set (w1 := snd (mmap f pre (snd (Math_random w)))).
  assert (Hsrc : random_src w1 = random_src w).
  { unfold w1. rewrite keeps_random_mmap; [reflexivity|].
    intros a. apply keeps_random_tick_step. }
  assert (Hcalls : random_calls w1
                   = (random_calls w + 1 + count_steps running pre
                      + (if Qltb 10 p then count_steps queued pre else 0))%nat).
  { unfold w1, f. rewrite steps_draws. cbn [Math_random snd random_calls].
    lia. }
  exists (fst (f s w1)). split.
  - rewrite nth_error_app2 by (rewrite mmap_length; lia).
    rewrite mmap_length, Nat.sub_diag. cbn [mmap]. rewrite !bind_run.
    reflexivity.
  - unfold f. rewrite (tick_step_running (Task.startTime t) p s w1 Hs).
    cbv zeta. cbn [Step.progress Step.status Step.name Step.llm].
    rewrite Hsrc, Hcalls. repeat split.
Qed.

Lemma tick_task_progress (t : Task.t) (w : World) :
  Task.status t = running ->
  Task.progress (fst (tick_task t w))
  = if forallb is_complete (Task.steps (fst (tick_task t w)))
    then 100%Q
    else min100 (Task.progress t + random_src w (random_calls w) * 6).
Proof.
  intros Ht. rewrite (tick_task_running t w Ht). cbv zeta.
  cbn [fst Task.progress Task.steps]. fold (incremented t w).
  destruct (forallb is_complete _); [reflexivity|]. cbn [orb].
  destruct (Qle_bool 100 (min100 (incremented t w))) eqn:E; [|reflexivity].
  rewrite reached_100_min100 in E. unfold min100. now rewrite E.
Qed.

(** C3 (as stated, refuted).  A running task at progress 20 whose last
    running step reaches 100 in the tick comes out with progress 100: an
    increase of 80, which is not an increase by an amount in [[0, 6]]
    capped at 100. *)
Lemma tick_increase_not_as_stated :
  let t' := fst (tick_task last_step_task (sample_world (9 # 10))) in
  Task.progress t' = 100%Q
  /\ Task.status t' = complete
  /\ ~ increased_as_stated last_step_task t'.
Proof.
  cbv zeta. split; [reflexivity | split; [reflexivity|]].
  intros [d [Hd0 [Hd6 H]]].
  change (Task.progress (fst (tick_task last_step_task
                                (sample_world (9 # 10))))) with 100%Q in H.
  change (Task.progress last_step_task) with 20%Q in H.
  destruct (min100_spec (20 + d)) as [[Hge _]|[_ Heq]]; [lra|].
  rewrite Heq in H. lra.
Qed.

(** C3 (amended).  With a random source that yields numbers of [[0, 1)]:
    whatever the number of ticks, tasks whose progress and step progress
    values lie in [[0, 100]] still have them there.  On a running task a
    tick draws [r] and the new overall progress is exactly the old one plus
    the amount [r * 6] of [[0, 6)], capped at 100 - unless every step is
    complete after the tick, in which case it is 100 whatever the amount.
    Every running step of the task is replaced, at its position, by a step
    whose progress is the old one (0 if unset) plus ten times the next
    number of the random source, an amount of [[0, 10)], capped at 100, and
    which is complete exactly when that reaches 100; the number is the one
    that follows the task's own draw and the draws of the steps before it
    (one for each running step, and one for each queued step when the
    capped incremented progress of the task exceeds 10). *)
Theorem progress_stays_in_range (w : World) :
  unit_random w ->
  (forall n tasks, Forall task_in_range tasks ->
     Forall task_in_range (fst (ticks n tasks w)))
  /\ (forall t, Task.status t = running ->
        let r := random_src w (random_calls w) in
        let t' := fst (tick_task t w) in
        (0 <= r * 6 /\ r * 6 < 6)%Q
        /\ Task.progress t'
           = (if forallb is_complete (Task.steps t')
              then 100%Q
              else min100 (Task.progress t + r * 6))
        /\ (forall pre s post,
              Task.steps t = pre ++ s :: post -> Step.status s = running ->
              let p := min100 (Task.progress t + r * 6) in
              let k := (random_calls w + 1 + count_steps running pre
                        + (if Qltb 10 p then count_steps queued pre else 0))%nat
              in
              let sp := min100 (or_num (Step.progress s) 0
                                + random_src w k * 10) in
              exists s',
                nth_error (Task.steps t') (List.length pre) = Some s'
                /\ Step.progress s' = Some sp
                /\ Step.status s'
                   = (if Qle_bool 100 sp then complete else running)
                /\ Step.name s' = Step.name s /\ Step.llm s' = Step.llm s))
  /\ (forall k, (0 <= random_src w k * 10 /\ random_src w k * 10 < 10)%Q)
  /\ (forall start p s, Step.status s = running ->
        let r := random_src w (random_calls w) in
        let s' := fst (tick_step start p s w) in
        Step.progress s'
        = Some (min100 (or_num (Step.progress s) 0 + r * 10))).
Proof.
  intros Hw. destruct (Hw (random_calls w)) as [Hr0 Hr1].
  split; [|split; [|split]].
  - intros n tasks Ht. now apply ticks_in_range.
  - intros t Ht. cbv zeta. split; [lra|].
    split; [now apply tick_task_progress|].
    intros pre s post Hsteps Hs.
    exact (tick_task_step_at t w pre s post Ht Hsteps Hs).
  - intros k. destruct (Hw k). lra.
  - intros start p s Hs. cbv zeta.
    now rewrite (tick_step_running start p s w Hs).
Qed.

Lemma sample_world_unit_random : unit_random (sample_world (1 # 2)).
Proof. intros n. cbn. split; [discriminate | reflexivity]. Defined.

Lemma progress_stays_in_range_witness :
  let w := sample_world (1 # 2) in
  (forall n tasks, Forall task_in_range tasks ->
     Forall task_in_range (fst (ticks n tasks w)))
  /\ (forall t, Task.status t = running ->
        let r := random_src w (random_calls w) in
        let t' := fst (tick_task t w) in
        (0 <= r * 6 /\ r * 6 < 6)%Q
        /\ Task.progress t'
           = (if forallb is_complete (Task.steps t')
              then 100%Q
              else min100 (Task.progress t + r * 6))
        /\ (forall pre s post,
              Task.steps t = pre ++ s :: post -> Step.status s = running ->
              let p := min100 (Task.progress t + r * 6) in
              let k := (random_calls w + 1 + count_steps running pre
                        + (if Qltb 10 p then count_steps queued pre else 0))%nat
              in
              let sp := min100 (or_num (Step.progress s) 0
                                + random_src w k * 10) in
              exists s',
                nth_error (Task.steps t') (List.length pre) = Some s'
                /\ Step.progress s' = Some sp
                /\ Step.status s'
                   = (if Qle_bool 100 sp then complete else running)
                /\ Step.name s' = Step.name s /\ Step.llm s' = Step.llm s))
  /\ (forall k, (0 <= random_src w k * 10 /\ random_src w k * 10 < 10)%Q)
  /\ (forall start p s, Step.status s = running ->
        let r := random_src w (random_calls w) in
        let s' := fst (tick_step start p s w) in
        Step.progress s'
        = Some (min100 (or_num (Step.progress s) 0 + r * 10))).
Proof.
  exact (progress_stays_in_range (sample_world (1 # 2))
           sample_world_unit_random).
Defined.

(** The amended rule on a task of the initial collection: at progress 42
    with the draw 1/2 the new progress is 45, and the running step goes
    from 35 to 40. *)
Example tick_seed_t1 :
  let t' := fst (tick_task (seed_t1 1000000) (sample_world (1 # 2))) in
  (Task.progress t' == 45)%Q /\ Task.status t' = running
  /\ map Step.status (Task.steps t') = [complete; running; queued; queued]
  /\ option_map (fun q => Qeq_bool q 40)
                (Step.progress (nth 1 (Task.steps t') (Step.mk [] queued [] None None)))
     = Some true.
Proof. cbv zeta. repeat split. Qed.

(** The tasks the dashboard starts with are in range, and so are those the
    factory builds from the default pipeline or from a derived one. *)
Lemma seedTasks_in_range (w : World) :
  Forall task_in_range (fst (seedTasks w)).
Proof.
  cbn. repeat constructor; cbn; discriminate.
Qed.

Lemma makeTask_in_range (name : jsstring) (user : option jsstring)
      (steps : option (list Step.t)) (w : World) :
  match steps with
  | Some a => Forall step_in_range a
  | None => True
  end ->
  task_in_range (fst (makeTask name user steps w)).
Proof.
  intros H. rewrite makeTask_run. cbv zeta. cbn [fst].
  split; cbn [Task.progress Task.steps].
  - unfold in_range. lra.
  - destruct steps as [a|]; [exact H|].
    repeat constructor; cbn; discriminate.
Qed.

(** The dashboard from its start, after any number of ticks. *)
Lemma dashboard_in_range (n : nat) (w : World) :
  unit_random w ->
  Forall task_in_range (fst ((tasks <- seedTasks ;; ticks n tasks) w)).
Proof.
  intros Hw. rewrite bind_run. apply ticks_in_range.
  - apply (unit_random_kept seedTasks w (fun _ => eq_refl) Hw).
  - apply seedTasks_in_range.
Qed.

(** C9 (as stated, refuted).  A queued step whose recorded progress is 0 is
    promoted with progress 5, not with its prior value. *)
Lemma promotion_seed_not_as_stated :
  let s := Step.mk (lit "Anomaly Check") queued (lit "Kimi K2")
             (Some 0%Q) None in
  let s' := fst (tick_step 0 50%Q s (sample_world (9 # 10))) in
  Step.status s' = running
  /\ Step.progress s' = Some 5%Q
  /\ ~ seeded_as_stated s s'.
Proof.
  cbv zeta. split; [reflexivity | split; [reflexivity|]].
  intros H. vm_compute in H. discriminate H.
Qed.

(** C9 (amended).  During a tick a complete step is left unchanged.  A
    queued step is left unchanged, without a random draw, unless the task's
    freshly incremented progress exceeds 10; then one number [r] of the
    random source is drawn and the step is promoted exactly when [r]
    exceeds 0.7: it becomes running, its progress is its prior value when
    that is set and not zero, and 5 otherwise, and its duration is computed
    from the task's start time; when [r] does not exceed 0.7 the step is
    unchanged. *)
Theorem tick_step_promotion (start : Z) (progress : Q) (s : Step.t)
        (w : World) :
  let r := random_src w (random_calls w) in
  (Step.status s = complete -> tick_step start progress s w = (s, w))
  /\ (Step.status s = queued -> ~ (10 < progress)%Q ->
      tick_step start progress s w = (s, w))
  /\ (Step.status s = queued -> (10 < progress)%Q -> ~ (7 # 10 < r)%Q ->
      tick_step start progress s w = (s, snd (Math_random w)))
  /\ (Step.status s = queued -> (10 < progress)%Q -> (7 # 10 < r)%Q ->
      fst (tick_step start progress s w)
      = Step.mk (Step.name s) running (Step.llm s)
          (Some match Step.progress s with
                | Some q => if Qeq_bool q 0 then 5%Q else q
                | None => 5%Q
                end)
          (Some (fst (calcDuration start (snd (Math_random w)))))).
Proof.
  cbv zeta. split; [apply tick_step_complete|].
  split; [|split]; intros Hq; rewrite (tick_step_queued start progress s w Hq).
  - intros Hp. rewrite <- Qltb_lt in Hp.
    now destruct (Qltb 10 progress).
  - intros Hp Hr. rewrite <- Qltb_lt in Hp, Hr. rewrite Hp.
    now destruct (Qltb (7 # 10) _).
  - intros Hp Hr. rewrite <- Qltb_lt in Hp, Hr. now rewrite Hp, Hr.
Qed.

Lemma tick_step_promotion_witness :
  let s := Step.mk (lit "Anomaly Check") queued (lit "Kimi K2") None None in
  let w := sample_world (9 # 10) in
  fst (tick_step 0 50%Q s w)
  = Step.mk (lit "Anomaly Check") running (lit "Kimi K2") (Some 5%Q)
      (Some (lit "16m 40s"))
  /\ tick_step 0 10%Q s w = (s, w)
  /\ tick_step 0 50%Q s (sample_world (7 # 10))
     = (s, snd (Math_random (sample_world (7 # 10)))).
Proof.
  cbv zeta. split; [|split].
  - apply (proj2 (proj2 (proj2
      (tick_step_promotion 0 50%Q
         (Step.mk (lit "Anomaly Check") queued (lit "Kimi K2") None None)
         (sample_world (9 # 10)))))); reflexivity.
  - apply (proj1 (proj2
      (tick_step_promotion 0 10%Q
         (Step.mk (lit "Anomaly Check") queued (lit "Kimi K2") None None)
         (sample_world (9 # 10))))); [reflexivity | discriminate].
  - apply (proj1 (proj2 (proj2
      (tick_step_promotion 0 50%Q
         (Step.mk (lit "Anomaly Check") queued (lit "Kimi K2") None None)
         (sample_world (7 # 10)))))); [reflexivity | reflexivity |].
    discriminate.
Defined.

(** ** The task factory *)

(** C8.  [makeTask] called with a name and no step array returns a task
    with the fixed four-stage pipeline ("Ingest Requirements" running, the
    other three queued, fixed labels), [llm] the label of the first running
    step, status running, progress 5, start time the time of creation,
    duration ["0s"], and as identifier the incremented process-wide counter;
    a later call, whatever ticks happen in between, gets a strictly larger
    identifier, the next integer.  With a step array in which no step is
    running, [llm] is the fallback ["GPT-4"]. *)
Theorem makeTask_default (name : jsstring) (user : option jsstring)
        (w : World) :
  let t := fst (makeTask name user None w) in
  let w' := snd (makeTask name user None w) in
  Task.name t = name
  /\ Task.steps t =
     [ Step.mk (lit "Ingest Requirements") running (lit "GPT-4")
         (Some 15%Q) None;
       Step.mk (lit "Spec Synthesis") queued (lit "Claude Sonnet 4.5")
         None None;
       Step.mk (lit "Ops Plan + Checks") queued (lit "Kimi K2") None None;
       Step.mk (lit "Execution & Verify") queued (lit "GPT-4") None None ]
  /\ option_map Step.llm (find is_running (Task.steps t)) = Some (Task.llm t)
  /\ Task.llm t = lit "GPT-4"
  /\ Task.status t = running
  /\ Task.progress t = 5%Q
  /\ Task.startTime t = clock_src w (clock_calls w)
  /\ Task.duration t = Some (lit "0s")
  /\ Task.id t = (idCounter w + 1)%Z
  /\ idCounter w' = Task.id t
  /\ (forall n tasks name2 user2 steps2,
        let t2 := fst (makeTask name2 user2 steps2
                         (snd (ticks n tasks w'))) in
        Task.id t2 = (Task.id t + 1)%Z /\ (Task.id t < Task.id t2)%Z)
  /\ (forall name2 user2 steps2 w2,
        find is_running steps2 = None ->
        Task.llm (fst (makeTask name2 user2 (Some steps2) w2)) = lit "GPT-4").
Proof.
  cbv zeta. rewrite (makeTask_run name user None w). cbv zeta.
  cbn [fst snd Task.name Task.steps Task.llm Task.status Task.progress
       Task.startTime Task.duration Task.id idCounter].
  repeat (split; [reflexivity|]).
  split.
  - intros n tasks name2 user2 steps2. rewrite makeTask_run. cbv zeta.
    cbn [fst Task.id]. rewrite (keeps_counter_ticks n tasks).
    cbn [idCounter]. split; [reflexivity | lia].
  - intros name2 user2 steps2 w2 Hnone. rewrite makeTask_run. cbv zeta.
    cbn [fst Task.llm]. now rewrite Hnone.
Qed.

(** The example of the specification. *)
Example makeTask_audit_logs :
  let t := fst (makeTask (lit "Audit Logs") None None (sample_world 0)) in
  Task.id t = 1001%Z /\ Task.status t = running /\ Task.progress t = 5%Q
  /\ Task.llm t = lit "GPT-4" /\ Task.user t = lit "You"
  /\ Task.steps t = default_pipeline.
Proof. repeat split. Qed.

(** C10.  [makeTask] given an empty step array keeps it: the task has no
    step and its [llm] is the fallback ["GPT-4"]; and since every step of an
    empty list is complete, the first tick, in any state of the random
    source and the clock, sets its progress to 100 and its status to
    complete.  A transcript whose latest plan message has no numbered line
    leads there. *)
Theorem makeTask_empty_pipeline (name : jsstring) (user : option jsstring)
        (w : World) :
  let t := fst (makeTask name user (Some []) w) in
  Task.steps t = []
  /\ Task.llm t = lit "GPT-4"
  /\ Task.status t = running
  /\ Task.progress t = 5%Q
  /\ (forall w', let t' := fst (tick_task t w') in
                 Task.progress t' = 100%Q /\ Task.status t' = complete
                 /\ Task.steps t' = [])
  /\ createTaskFromChat [msg ai "See section 1.2 of the runbook"]
     = Normal (makeTask (lit "New Orchestrated Task") (Some currentUser)
                 (Some [])).
Proof.
  cbv zeta. rewrite (makeTask_run name user (Some []) w). cbv zeta.
  cbn [fst Task.steps Task.llm Task.status Task.progress].
  repeat (split; [reflexivity|]).
  split; [|reflexivity].
  intros w'. rewrite tick_task_running by reflexivity. cbv zeta.
  cbn [fst Task.steps Task.progress Task.status mmap ret forallb orb].
  repeat split.
Qed.

(* ===================================================================== *)
(** * Further properties of the code *)
(* ===================================================================== *)

(** ** Durations *)

(** X1.  [calcDuration] reads the clock once.  A start time in the future,
    or less than half a second in the past, gives ["0s"]; otherwise the
    elapsed time is rounded to the nearest whole second [sec] (a half
    rounds up), shown as ["<sec>s"] under a minute and as ["<m>m <r>s"]
    with [sec = 60 m + r] and [r] below 60 from a minute on. *)
Theorem calcDuration_rounds (start : Z) (w : World) :
  let now := clock_src w (clock_calls w) in
  let out := fst (calcDuration start w) in
  clock_calls (snd (calcDuration start w)) = S (clock_calls w)
  /\ ((now < start + 500)%Z -> out = lit "0s")
  /\ ((start + 500 <= now)%Z ->
      exists sec m r : Z,
        (1 <= sec /\ 1000 * sec - 500 <= now - start < 1000 * sec + 500
         /\ sec = 60 * m + r /\ 0 <= m /\ 0 <= r < 60)%Z
        /\ out = if (sec <? 60)%Z
                 then of_N (Z.to_N sec) ++ lit "s"
                 else of_N (Z.to_N m) ++ lit "m " ++ of_N (Z.to_N r)
                      ++ lit "s").
Proof.
  cbv zeta. unfold calcDuration. rewrite bind_run. cbn [Date_now fst snd].
  set (now := clock_src w (clock_calls w)).
  set (q := ((now - start + 500) / 1000)%Z).
  assert (Hq : (1000 * q <= now - start + 500 < 1000 * q + 1000)%Z).
  { unfold q.
    pose proof (Z.div_mod (now - start + 500) 1000 ltac:(lia)).
    pose proof (Z.mod_pos_bound (now - start + 500) 1000 ltac:(lia)). lia. }
  split; [|split].
  - destruct (Z.max 0 q <? 60)%Z; reflexivity.
  - intros Hlt. replace (Z.max 0 q) with 0%Z by lia. reflexivity.
  - intros Hge. replace (Z.max 0 q) with q by lia.
    exists q, (q / 60)%Z, (q mod 60)%Z.
    pose proof (Z.div_mod q 60 ltac:(lia)).
    pose proof (Z.mod_pos_bound q 60 ltac:(lia)).
    assert (0 <= q / 60)%Z by (apply Z.div_pos; lia).
    split; [lia|]. destruct (q <? 60)%Z; reflexivity.
Qed.

(** ** Task names from the chat *)

Lemma find_rev_last {A} (p : A -> bool) (earlier later : list A) (u : A) :
  p u = true -> Forall (fun x => p x = false) later ->
  find p (rev (earlier ++ u :: later)) = Some u.
Proof.
  intros Hu Hl. rewrite rev_app_distr. cbn [rev]. rewrite <- app_assoc.
  apply Forall_rev in Hl.
  induction Hl as [|x l Hx _ IH]; cbn [app find]; [now rewrite Hu|].
  now rewrite Hx.
Qed.

(** X2.  [summarize] never returns more than 60 code units; it is the
    first 60 code units of the most recent user message, whatever ai
    messages follow it, and the fixed title when no user has written. *)
Theorem summarize_last_user (messages : list Message) :
  (List.length (summarize messages) <= 60)%nat
  /\ (Forall (fun m => role m = ai) messages ->
      summarize messages = lit "New Orchestrated Task")
  /\ (forall earlier u later,
        messages = earlier ++ u :: later ->
        role u = user -> Forall (fun m => role m = ai) later ->
        summarize messages = firstn 60 (text u)).
Proof.
  split; [|split].
  - unfold summarize, slice0.
    destruct (find is_user (rev messages)) as [u|].
    + apply firstn_le_length.
    + apply Nat.leb_le. vm_compute. reflexivity.
  - intros H. unfold summarize.
    replace (find is_user (rev messages)) with (@None Message); [reflexivity|].
    symmetry. apply find_rev_none.
    apply Forall_impl with (2 := H). intros m Hm. unfold is_user.
    now rewrite Hm.
  - intros earlier u later -> Hu Hl. unfold summarize.
    rewrite (find_rev_last is_user earlier later u); [reflexivity | |].
    + unfold is_user. now rewrite Hu.
    + apply Forall_impl with (2 := Hl). intros m Hm. unfold is_user.
      now rewrite Hm.
Qed.

(** ** More on the pipeline deriver *)

Lemma cmap_throw_inv {A B} (f : A -> completion B) (l : list A) (e : JsError) :
  cmap f l = Throw e -> exists x, In x l /\ f x = Throw e.
Proof.
  destruct e. induction l as [|y l IH]; [discriminate|].
  cbn [cmap]. destruct (f y) as [b|[]] eqn:E.
  - cbn [cbind]. destruct (cmap f l) as [ys|[]] eqn:El; [discriminate|].
    intros _. destruct (IH eq_refl) as [x [Hx Hf]].
    exists x. split; [now right | exact Hf].
  - intros _. exists y. split; [now left | exact E].
Qed.

Lemma cmap_normal_inv {A B} (f : A -> completion B) (P : B -> Prop) :
  (forall x y, f x = Normal y -> P y) ->
  forall l ys, cmap f l = Normal ys ->
    Forall P ys /\ List.length ys = List.length l.
Proof.
  intros Hf. induction l as [|x l IH]; intros ys H.
  - injection H as <-. split; [constructor | reflexivity].
  - cbn [cmap] in H. destruct (f x) as [y|] eqn:E; [|discriminate].
    cbn [cbind] in H. destruct (cmap f l) as [ys'|]; [|discriminate].
    cbn [cbind] in H. injection H as <-.
    destruct (IH ys' eq_refl) as [HP Hlen].
    split; [constructor; eauto | cbn; now rewrite Hlen].
Qed.

Lemma parse_line_fresh (l : jsstring) (s : Step.t) :
  parse_line l = Normal s -> fresh_step s.
Proof.
  unfold parse_line.
  destruct (split (lit ". ") l) as [|i [|rest more]]; try discriminate.
  destruct (split (lit " — ") rest) as [|namePart more']; [discriminate|].
  intros H. injection H as <-. repeat split.
Qed.

Lemma includes_dot_space_dec (l : jsstring) :
  includes dot_space l = false \/ exists s, parse_line l = Normal s.
Proof.
  destruct (includes dot_space l) eqn:E; [right | now left].
  now apply parse_line_returns.
Qed.

(** X3.  [derivePipeline] throws exactly when the message it selects has a
    line that begins with digits and a dot but holds no [". "]; the error is
    the TypeError of calling [split] on [undefined]. *)
Theorem derivePipeline_throws_iff (messages : list Message) :
  derivePipeline messages = Throw TypeError <->
  exists m l, find is_plan (rev messages) = Some m
              /\ In l (lines (text m)) /\ test_number_dot l = true
              /\ includes dot_space l = false.
Proof.
  split.
  - unfold derivePipeline.
    destruct (find is_plan (rev messages)) as [m|]; [|discriminate].
    destruct (cmap parse_line _) as [steps|e] eqn:E; [discriminate|].
    intros _. apply cmap_throw_inv in E as [l [Hin Hl]].
    apply filter_In in Hin as [Hin Ht].
    exists m, l. repeat split; try assumption.
    destruct (includes_dot_space_dec l) as [H|[s Hs]]; [exact H | congruence].
  - intros [m [l [Hsel [Hin [Ht Hn]]]]].
    now apply (derivePipeline_throws messages m l).
Qed.

(** X4.  When [derivePipeline] returns an array, it has one step per line
    of the selected message that begins with digits and a dot, no step has
    a progress or a duration, and the first step is running while all the
    others are queued. *)
Theorem derivePipeline_shape (messages : list Message) (steps : list Step.t) :
  derivePipeline messages = Normal (Some steps) ->
  exists m,
    find is_plan (rev messages) = Some m
    /\ List.length steps
       = List.length (filter test_number_dot (lines (text m)))
    /\ Forall (fun s => Step.progress s = None /\ Step.duration s = None)
              steps
    /\ match steps with
       | [] => True
       | s0 :: more =>
           Step.status s0 = running
           /\ Forall (fun s => Step.status s = queued) more
       end.
Proof.
  unfold derivePipeline.
  destruct (find is_plan (rev messages)) as [m|]; [|discriminate].
  destruct (cmap parse_line _) as [parsed|] eqn:E; [|discriminate].
  cbn [cbind]. intros H. injection H as <-. exists m.
  destruct (cmap_normal_inv parse_line fresh_step parse_line_fresh _ _ E)
    as [Hfresh Hlen].
  split; [reflexivity|]. unfold lines. rewrite <- Hlen.
  destruct Hfresh as [|s0 more [H0 [H1 H2]] Hmore].
  - repeat split; constructor.
  - repeat split.
    + constructor; [now split|].
      apply Forall_impl with (2 := Hmore). now intros s [_ Hs].
    + apply Forall_impl with (2 := Hmore). now intros s [Hs _].
Qed.

Lemma derivePipeline_shape_witness :
  exists m,
    find is_plan (rev [msg ai "Plan:"; {| role := ai; text := two_line_plan |}])
    = Some m
    /\ List.length planned_steps_head
       = List.length (filter test_number_dot (lines (text m)))
    /\ Forall (fun s => Step.progress s = None /\ Step.duration s = None)
              planned_steps_head
    /\ match planned_steps_head with
       | [] => True
       | s0 :: more =>
           Step.status s0 = running
           /\ Forall (fun s => Step.status s = queued) more
       end.
Proof.
  apply (derivePipeline_shape
           [msg ai "Plan:"; {| role := ai; text := two_line_plan |}]
           planned_steps_head).
  reflexivity.
Defined.

(** X5.  [derivePipeline] returns [undefined] exactly when no ai message
    holds the characters ["1."]; otherwise the result is that of the most
    recent such message alone, whatever comes before it and whatever
    messages without those characters, or from the user, come after it. *)
Theorem derivePipeline_latest_plan :
  (forall messages,
     derivePipeline messages = Normal None <->
     (forall m, In m messages -> role m = ai ->
                includes (lit "1.") (text m) = false))
  /\ (forall earlier m later,
        is_plan m = true -> Forall (fun x => is_plan x = false) later ->
        derivePipeline (earlier ++ m :: later) = derivePipeline [m]).
Proof.
  split.
  - intros messages. rewrite derivePipeline_none, Forall_forall.
    split; intros H m Hm.
    + intros Hr. specialize (H m Hm). unfold is_plan in H.
      now rewrite Hr in H.
    + unfold is_plan. destruct (role m) eqn:Hr; [reflexivity|].
      now apply H.
  - intros earlier m later Hm Hl. unfold derivePipeline.
    rewrite (find_rev_last is_plan earlier later m Hm Hl).
    cbn [rev app find]. now rewrite Hm.
Qed.

(** ** What a tick keeps and what it only moves forward *)

Lemma Forall2_chain {A} (R : A -> A -> Prop) :
  (forall a b c, R a b -> R b c -> R a c) ->
  forall l1 l2 l3, Forall2 R l1 l2 -> Forall2 R l2 l3 -> Forall2 R l1 l3.
Proof.
  intros Ht l1 l2 l3 H12. revert l3.
  induction H12 as [|a b l1 l2 Hab _ IH]; intros l3 H23;
    inversion H23; subst; constructor; eauto.
Qed.

Lemma Forall2_same {A} (R : A -> A -> Prop) (l : list A) :
  (forall a, R a a) -> Forall2 R l l.
Proof. intros Hr. induction l; constructor; auto. Qed.

Lemma status_le_refl (a : Status) : status_le a a.
Proof. unfold status_le. lia. Qed.

Lemma status_le_trans (a b c : Status) :
  status_le a b -> status_le b c -> status_le a c.
Proof. unfold status_le. lia. Qed.

Lemma step_later_refl (s : Step.t) : step_later s s.
Proof. repeat split. apply status_le_refl. Qed.

Lemma step_later_trans (a b c : Step.t) :
  step_later a b -> step_later b c -> step_later a c.
Proof.
  intros [H1 [H2 H3]] [K1 [K2 K3]]. repeat split; try congruence.
  eapply status_le_trans; eassumption.
Qed.

Lemma task_later_refl (t : Task.t) : task_later t t.
Proof.
  repeat split; try apply status_le_refl; try tauto.
  apply Forall2_same, step_later_refl.
Qed.

Lemma task_later_trans (a b c : Task.t) :
  task_later a b -> task_later b c -> task_later a c.
Proof.
  intros [H1 [H2 [H3 [H4 [H5 [H6 [H7 H8]]]]]]]
         [K1 [K2 [K3 [K4 [K5 [K6 [K7 K8]]]]]]].
  repeat split; try congruence; try tauto.
  - eapply status_le_trans; eassumption.
  - eapply Forall2_chain; [apply step_later_trans | eassumption..].
Qed.

Lemma tick_step_later (start : Z) (p : Q) (s : Step.t) (w : World) :
  step_later s (fst (tick_step start p s w)).
Proof.
  destruct (Step.status s) eqn:E.
  - rewrite (tick_step_queued start p s w E).
    destruct (Qltb 10 p); [|apply step_later_refl].
    destruct (Qltb (7 # 10) _); [|apply step_later_refl].
    repeat split. cbn [fst Step.status]. rewrite E. unfold status_le. cbn. lia.
  - rewrite (tick_step_running start p s w E). cbv zeta.
    repeat split. cbn [Step.status]. rewrite E.
    destruct (Qle_bool 100 _); unfold status_le; cbn; lia.
  - rewrite (tick_step_complete start p s w E). apply step_later_refl.
Qed.

Lemma tick_task_later (t : Task.t) (w : World) :
  task_later t (fst (tick_task t w)).
Proof.
  destruct (Task.status t) eqn:E;
    try (rewrite tick_task_not_running by congruence; apply task_later_refl).
  rewrite (tick_task_running t w E). cbv zeta. cbn [fst].
  unfold task_later.
  cbn [Task.id Task.name Task.user Task.llm Task.startTime Task.status
       Task.steps].
  rewrite E. repeat split; try discriminate.
  - destruct (_ || _); unfold status_le; cbn; lia.
  - destruct (_ || _); discriminate.
  - apply (mmap_Forall2 (tick_step (Task.startTime t)
                           (min100 (incremented t w)))
             (fun _ => True) (fun _ => True) step_later).
    + intros a w' _ _. split; [apply tick_step_later | exact I].
    + exact I.
    + apply Forall_forall. intros; exact I.
Qed.

Lemma tick_later (tasks : list Task.t) (w : World) :
  Forall2 task_later tasks (fst (tick tasks w)).
Proof.
  apply (mmap_Forall2 tick_task (fun _ => True) (fun _ => True) task_later).
  - intros a w' _ _. split; [apply tick_task_later | exact I].
  - exact I.
  - apply Forall_forall. intros; exact I.
Qed.

Lemma ticks_later (n : nat) :
  forall tasks w, Forall2 task_later tasks (fst (ticks n tasks w)).
Proof.
  induction n as [|n IH]; intros tasks w.
  - apply Forall2_same, task_later_refl.
  - cbn [ticks]. rewrite bind_run.
    eapply Forall2_chain; [apply task_later_trans | apply tick_later | apply IH].
Qed.

(** X6.  Whatever the number of ticks, the collection keeps its tasks in
    place with their identifier, name, user, label and start time, and every
    task keeps its steps in place with their name and label; no task and no
    step ever goes back to an earlier status (queued, running, complete),
    and a task is queued afterwards exactly when it was queued before. *)
Theorem ticks_keep_identity (n : nat) (tasks : list Task.t) (w : World) :
  Forall2 task_later tasks (fst (ticks n tasks w)).
Proof. apply ticks_later. Qed.

Lemma progress_le_trans (a b c : option Q) :
  progress_le a b -> progress_le b c -> progress_le a c.
Proof.
  destruct a as [x|], b as [y|], c as [z|]; cbn; try tauto. intros; lra.
Qed.

Lemma task_grown_trans (a b c : Task.t) :
  task_grown a b -> task_grown b c -> task_grown a c.
Proof.
  intros [H1 H2] [K1 K2]. split; [lra|].
  eapply Forall2_chain; [|eassumption..].
  intros x y z. apply progress_le_trans.
Qed.

Lemma or_num_ge (p : option Q) (d : Q) :
  (0 <= d)%Q -> progress_le p (Some (or_num p d)).
Proof.
  intros Hd. destruct p as [q|]; [|exact I]. cbn.
  destruct (Qeq_bool q 0) eqn:E; [|lra].
  apply Qeq_bool_iff in E. lra.
Qed.

Lemma min100_ge (x y : Q) : (y <= x)%Q -> (y <= 100)%Q -> (y <= min100 x)%Q.
Proof.
  intros H1 H2. destruct (min100_spec x) as [[_ ->]|[_ ->]]; assumption.
Qed.

Lemma tick_step_grown (start : Z) (p : Q) (s : Step.t) (w : World) :
  unit_random w -> step_in_range s ->
  step_grown s (fst (tick_step start p s w)).
Proof.
  intros Hw Hs. unfold step_grown. destruct (Hw (random_calls w)) as [Hr _].
  assert (Hrefl : progress_le (Step.progress s) (Step.progress s)).
  { destruct (Step.progress s); cbn; [lra | exact I]. }
  destruct (Step.status s) eqn:E.
  - rewrite (tick_step_queued start p s w E).
    destruct (Qltb 10 p); [|exact Hrefl].
    destruct (Qltb (7 # 10) _); [|exact Hrefl].
    cbn [fst Step.progress]. apply (or_num_ge (Step.progress s) 5). lra.
  - rewrite (tick_step_running start p s w E). cbv zeta.
    cbn [Step.progress]. pose proof (or_num_ge (Step.progress s) 0) as Ho.
    unfold step_in_range in Hs.
    destruct (Step.progress s) as [q|]; [|exact I].
    cbn in Ho |- *. destruct Hs as [_ Hq].
    apply min100_ge; [|exact Hq]. specialize (Ho ltac:(lra)). lra.
  - now rewrite (tick_step_complete start p s w E).
Qed.

Lemma tick_task_grown (t : Task.t) (w : World) :
  unit_random w -> task_in_range t -> task_grown t (fst (tick_task t w)).
Proof.
  intros Hw [[Hp0 Hp1] Hs].
  assert (Hrefl : task_grown t t).
  { split; [lra|]. apply Forall2_same. intros s. unfold step_grown.
    destruct (Step.progress s); cbn; [lra | exact I]. }
  destruct (Task.status t) eqn:E;
    try (rewrite tick_task_not_running by congruence; exact Hrefl).
  rewrite (tick_task_running t w E). cbv zeta. cbn [fst].
  unfold task_grown. cbn [Task.progress Task.steps]. split.
  - destruct (_ || _); [exact Hp1|].
    apply min100_ge; [|exact Hp1]. unfold incremented.
    destruct (Hw (random_calls w)) as [Hr _]. lra.
  - apply (mmap_Forall2 (tick_step (Task.startTime t)
                           (min100 (incremented t w)))
             unit_random step_in_range step_grown).
    + intros a w' Hw' Ha. split; [now apply tick_step_grown|].
      apply unit_random_kept; [apply keeps_random_tick_step | exact Hw'].
    + apply (unit_random_kept Math_random w keeps_random_Math_random Hw).
    + exact Hs.
Qed.

(** X7.  With a random source in [[0, 1)] and progress values that start
    in [[0, 100]], no number of ticks lowers the progress of a task or the
    recorded progress of a step. *)
Theorem ticks_never_lower_progress (n : nat) :
  forall tasks w, unit_random w -> Forall task_in_range tasks ->
    Forall2 task_grown tasks (fst (ticks n tasks w)).
Proof.
  induction n as [|n IH]; intros tasks w Hw Ht.
  - apply Forall2_same. intros t. split; [lra|].
    apply Forall2_same. intros s. unfold step_grown.
    destruct (Step.progress s); cbn; [lra | exact I].
  - cbn [ticks]. rewrite bind_run.
    destruct (mmap_preserves tick_task unit_random task_in_range task_in_range
                (fun a w' Hw' Ha => tick_task_in_range a w' Hw' Ha)
                tasks w Hw Ht) as [Ht' Hw'].
    eapply Forall2_chain; [apply task_grown_trans | | apply IH; assumption].
    apply (mmap_Forall2 tick_task unit_random task_in_range task_grown);
      try assumption.
    intros a w0 Hw0 Ha. split; [now apply tick_task_grown|].
    apply unit_random_kept; [apply keeps_random_tick_task | exact Hw0].
Qed.

Lemma ticks_never_lower_progress_witness :
  Forall2 task_grown (fst (seedTasks (sample_world (1 # 2))))
    (fst (ticks 25 (fst (seedTasks (sample_world (1 # 2))))
            (sample_world (1 # 2)))).
Proof.
  apply (ticks_never_lower_progress 25
           (fst (seedTasks (sample_world (1 # 2)))) (sample_world (1 # 2))).
  - exact sample_world_unit_random.
  - exact (seedTasks_in_range (sample_world (1 # 2))).
Defined.

(** ** The counters of the header *)

Lemma Forall2_filter {A} (R : A -> A -> Prop) (p : A -> bool) :
  (forall a b, R a b -> p a = p b) ->
  forall l l', Forall2 R l l' -> Forall2 R (filter p l) (filter p l').
Proof.
  intros Hp l l' H. induction H as [|a b l l' Hab _ IH]; [constructor|].
  cbn [filter]. rewrite (Hp a b Hab). destruct (p b); [now constructor | exact IH].
Qed.

Lemma filtered_later (v : View) (l l' : list Task.t) :
  Forall2 task_later l l' -> Forall2 task_later (filtered v l) (filtered v l').
Proof.
  intros H. destruct v; [exact H|]. cbn [filtered].
  apply Forall2_filter; [|exact H].
  intros a b [_ [_ [Hu _]]]. now rewrite Hu.
Qed.

Lemma count_partition (l : list Task.t) :
  List.length l
  = (count_status running l + count_status queued l
     + count_status complete l)%nat.
Proof.
  unfold count_status. induction l as [|t l IH]; [reflexivity|].
  cbn [filter List.length]. destruct (Task.status t); cbn; lia.
Qed.

Lemma count_later (l l' : list Task.t) :
  Forall2 task_later l l' ->
  count_status queued l' = count_status queued l
  /\ (count_status complete l <= count_status complete l')%nat.
Proof.
  unfold count_status. intros H.
  induction H as [|a b l l' Hab _ [IH1 IH2]]; [split; reflexivity|].
  destruct Hab as [_ [_ [_ [_ [_ [Hle [Hq _]]]]]]].
  cbn [filter]. unfold status_le in Hle.
  destruct (Task.status a) eqn:Ea, (Task.status b) eqn:Eb; cbn in *;
    try lia; try (exfalso; destruct Hq as [Hq1 Hq2];
                  first [now specialize (Hq1 eq_refl)
                        | now specialize (Hq2 eq_refl)]).
Qed.

Lemma run_ticks (n : nat) :
  forall a w,
    run (repeat Tick n) a w
    = (App.mk (fst (ticks n (App.tasks a) w)) (App.selectedId a)
         (App.view a) (App.messages a) (App.draft a) (App.replies_due a),
       snd (ticks n (App.tasks a) w)).
Proof.
  induction n as [|n IH]; intros a w.
  - destruct a. reflexivity.
  - cbn [repeat run handle]. unfold onTick. rewrite !bind_run.
    cbn [ret fst snd]. rewrite IH.
    cbn [App.tasks App.selectedId App.view App.messages App.draft
         App.replies_due ticks].
    now rewrite bind_run.
Qed.

(** X9.  The four counters of the header always add up: the total is the
    sum of the running, queued and complete counts.  Over any number of
    ticks, in either view, the total and the queued count do not change,
    the complete count does not decrease and the running count does not
    increase. *)
Theorem stats_over_ticks (n : nat) (a : App.t) (w : World) :
  let before := stats a in
  let after := stats (fst (run (repeat Tick n) a w)) in
  Stats.total before
  = (Stats.running before + Stats.queued before + Stats.complete before)%nat
  /\ Stats.total after = Stats.total before
  /\ Stats.queued after = Stats.queued before
  /\ (Stats.complete before <= Stats.complete after)%nat
  /\ (Stats.running after <= Stats.running before)%nat.
Proof.
  cbv zeta. rewrite run_ticks. unfold stats.
  cbn [fst App.tasks App.view Stats.total Stats.running Stats.queued
       Stats.complete].
  pose proof (filtered_later (App.view a) _ _ (ticks_later n (App.tasks a) w))
    as H.
  set (l := filtered (App.view a) (App.tasks a)) in *.
  set (l' := filtered (App.view a) (fst (ticks n (App.tasks a) w))) in *.
  pose proof (count_partition l). pose proof (count_partition l').
  pose proof (Forall2_length H).
  destruct (count_later l l' H). lia.
Qed.

(** ** Sessions *)

Lemma run_invariant (P : App.t -> World -> Prop) (E : Event -> Prop) :
  (forall e a w, E e -> P a w ->
                 P (fst (handle e a w)) (snd (handle e a w))) ->
  forall events a w, Forall E events -> P a w ->
    P (fst (run events a w)) (snd (run events a w)).
Proof.
  intros Hstep. induction events as [|e more IH]; intros a w He HP.
  - exact HP.
  - inversion He as [|? ? He1 He2]; subst.
    cbn [run]. rewrite bind_run. apply IH; [exact He2|].
    now apply Hstep.
Qed.

Lemma initial_app_run (w : World) :
  initial_app w
  = (App.mk [seed_t1 (clock_src w (clock_calls w));
             seed_t2 (clock_src w (clock_calls w));
             seed_t3 (clock_src w (clock_calls w))]
       (Some 1%Z) team initial_messages [] [],
     snd (Date_now w)).
Proof. reflexivity. Qed.

Lemma later_same_ids (l l' : list Task.t) :
  Forall2 task_later l l' -> map Task.id l' = map Task.id l.
Proof.
  intros H. induction H as [|a b l l' [Hid _] _ IH]; [reflexivity|].
  cbn [map]. now rewrite Hid, IH.
Qed.

Lemma fresh_id_added (c : Z) (t : Task.t) (l : list Task.t) :
  (0 <= c)%Z -> Task.id t = (c + 1)%Z ->
  NoDup (map Task.id l) ->
  Forall (fun x => (1 <= Task.id x <= c)%Z) l ->
  NoDup (map Task.id (t :: l))
  /\ Forall (fun x => (1 <= Task.id x <= c + 1)%Z) (t :: l).
Proof.
  intros Hc Ht Hnd Hall. split.
  - cbn [map]. constructor; [|exact Hnd]. rewrite Ht. intros Hin.
    apply in_map_iff in Hin as [x [Hx Hin]].
    rewrite Forall_forall in Hall. specialize (Hall x Hin). lia.
  - constructor; [lia|].
    apply Forall_impl with (2 := Hall). intros x Hx. lia.
Qed.

Lemma makeTask_ids_fresh (name : jsstring) (user : option jsstring)
      (steps : option (list Step.t)) (a : App.t) (w : World) :
  ids_fresh a w ->
  let t := fst (makeTask name user steps w) in
  ids_fresh
    (App.mk (t :: App.tasks a) (Some (Task.id t)) (App.view a)
       (App.messages a) (App.draft a) (App.replies_due a))
    (snd (makeTask name user steps w)).
Proof.
  intros [Hc [Hnd Hall]]. cbv zeta. rewrite makeTask_run. cbv zeta.
  cbn [fst snd]. unfold ids_fresh. cbn [App.tasks idCounter].
  split; [lia|].
  apply fresh_id_added; try assumption. reflexivity.
Qed.

Lemma handle_ids_fresh (e : Event) (a : App.t) (w : World) :
  ids_fresh a w -> ids_fresh (fst (handle e a w)) (snd (handle e a w)).
Proof.
  intros H. destruct e; cbn [handle ret fst snd]; try (destruct a; exact H).
  - (* Tick *)
    unfold onTick. rewrite bind_run. cbn [ret fst snd].
    destruct H as [Hc [Hnd Hall]]. unfold ids_fresh. cbn [App.tasks].
    assert (Hk : idCounter (snd (tick (App.tasks a) w)) = idCounter w)
      by apply keeps_counter_tick.
    rewrite Hk.
    pose proof (later_same_ids _ _ (tick_later (App.tasks a) w)) as Hids.
    split; [exact Hc|]. split; [now rewrite Hids|].
    apply Forall_map with (f := Task.id)
                          (P := fun i => (1 <= i <= idCounter w)%Z).
    rewrite Hids. now apply Forall_map.
  - (* AddTask *)
    unfold onAddTask. destruct (trim (or_str value [])) as [|c r];
      [exact H|].
    rewrite bind_run. cbn [ret fst snd]. now apply makeTask_ids_fresh.
  - (* SendMessage *)
    unfold sendMessage. cbv zeta. destruct (trim (App.draft a)); exact H.
  - (* ReplyDue *)
    unfold onReplyDue. destruct (nth_error (App.replies_due a) k); exact H.
  - (* CreateTaskFromChat *)
    unfold onCreateTaskFromChat, createTaskFromChat.
    destruct (derivePipeline (App.messages a)) as [pipeline|];
      cbn [cbind]; [|exact H].
    rewrite bind_run. cbn [ret fst snd]. now apply makeTask_ids_fresh.
Qed.

(** X10.  In every session, started with the counter at 3 or more (it
    starts at 1000), the tasks of the collection have pairwise distinct
    identifiers, all between 1 and the current value of the counter:
    neither adding tasks, nor creating them from the chat, nor ticks ever
    produce a duplicate. *)
Theorem session_ids_distinct (events : list Event) (w : World) :
  (3 <= idCounter w)%Z ->
  let a := fst (session events w) in
  let w' := snd (session events w) in
  NoDup (map Task.id (App.tasks a))
  /\ Forall (fun t => (1 <= Task.id t <= idCounter w')%Z) (App.tasks a).
Proof.
  intros Hc. cbv zeta. unfold session. rewrite bind_run.
  apply (run_invariant ids_fresh (fun _ => True)).
  - intros e a w' _. apply handle_ids_fresh.
  - apply Forall_forall. intros; exact I.
  - rewrite initial_app_run. unfold ids_fresh. cbn [fst snd App.tasks Date_now idCounter].
    split; [lia|]. split.
    + cbn. repeat constructor; cbn; intuition discriminate.
    + repeat constructor; cbn; lia.
Qed.

Lemma session_ids_distinct_witness :
  let a := fst (session sample_session (sample_world (9 # 10))) in
  let w' := snd (session sample_session (sample_world (9 # 10))) in
  NoDup (map Task.id (App.tasks a))
  /\ Forall (fun t => (1 <= Task.id t <= idCounter w')%Z) (App.tasks a).
Proof.
  apply (session_ids_distinct sample_session (sample_world (9 # 10))).
  cbn. lia.
Defined.

Lemma step_sound_in_range (s : Step.t) : step_sound s -> step_in_range s.
Proof.
  unfold step_sound, step_in_range.
  destruct (Step.status s); [intros [-> _]; exact I | tauto |].
  intros ->. unfold in_range. lra.
Qed.

Lemma tick_step_sound (start : Z) (p : Q) (s : Step.t) (w : World) :
  unit_random w -> step_sound s ->
  step_sound (fst (tick_step start p s w))
  /\ unit_random (snd (tick_step start p s w)).
Proof.
  intros Hw Hs. split;
    [|apply unit_random_kept; [apply keeps_random_tick_step | exact Hw]].
  pose proof (proj1 (tick_step_in_range start p s w Hw
                       (step_sound_in_range s Hs))) as Hr.
  destruct (Step.status s) eqn:E.
  - rewrite (tick_step_queued start p s w E) in Hr |- *.
    destruct (Qltb 10 p); [|exact Hs].
    destruct (Qltb (7 # 10) _); [|exact Hs].
    exact Hr.
  - rewrite (tick_step_running start p s w E) in Hr |- *. cbv zeta in Hr |- *.
    unfold step_sound. cbn [Step.status Step.progress].
    set (x := (or_num (Step.progress s) 0
               + random_src w (random_calls w) * 10)%Q) in *.
    destruct (Qle_bool 100 (min100 x)) eqn:Ex; [|exact Hr].
    rewrite reached_100_min100 in Ex. unfold min100. now rewrite Ex.
  - now rewrite (tick_step_complete start p s w E).
Qed.

Lemma tick_task_sound (t : Task.t) (w : World) :
  unit_random w -> task_sound t ->
  task_sound (fst (tick_task t w)) /\ unit_random (snd (tick_task t w)).
Proof.
  intros Hw Ht. split;
    [|apply unit_random_kept; [apply keeps_random_tick_task | exact Hw]].
  pose proof Ht as Hsound. destruct Ht as [Hp [Hc [Hn Hs]]].
  assert (Hrange : task_in_range t).
  { split; [exact Hp|]. apply Forall_impl with (2 := Hs).
    apply step_sound_in_range. }
  pose proof (proj1 (tick_task_in_range t w Hw Hrange)) as [Hp' _].
  destruct (Task.status t) eqn:E;
    try (rewrite tick_task_not_running by congruence; exact Hsound).
  rewrite (tick_task_running t w E) in Hp' |- *. cbv zeta in Hp' |- *.
  cbn [fst] in Hp' |- *. unfold task_sound.
  cbn [Task.progress Task.status Task.name Task.steps] in Hp' |- *.
  split; [exact Hp'|]. split; [|split; [exact Hn|]].
  - destruct (_ || _); [reflexivity | discriminate].
  - apply (mmap_preserves (tick_step (Task.startTime t)
                             (min100 (incremented t w)))
             unit_random step_sound step_sound).
    + intros s w' Hw' Hs'. now apply tick_step_sound.
    + apply (unit_random_kept Math_random w keeps_random_Math_random Hw).
    + exact Hs.
Qed.

Lemma default_pipeline_sound : Forall step_sound default_pipeline.
Proof.
  repeat constructor; cbn; try discriminate.
Qed.

Lemma first_running_sound (parsed : list Step.t) :
  Forall fresh_step parsed -> Forall step_sound (first_running parsed).
Proof.
  intros H.
  assert (Hq : Forall step_sound parsed).
  { apply Forall_impl with (2 := H). intros s [Hs [Hp Hd]].
    unfold step_sound. rewrite Hs. now split. }
  destruct H as [|s0 more [_ [Hp _]] _]; [constructor|].
  inversion Hq; subst. constructor; [|assumption].
  unfold step_sound, set_status, step_in_range. cbn [Step.status Step.progress].
  now rewrite Hp.
Qed.

Lemma derivePipeline_sound (messages : list Message) (steps : list Step.t) :
  derivePipeline messages = Normal (Some steps) -> Forall step_sound steps.
Proof.
  unfold derivePipeline.
  destruct (find is_plan (rev messages)) as [m|]; [|discriminate].
  destruct (cmap parse_line _) as [parsed|] eqn:E; [|discriminate].
  cbn [cbind]. intros H. injection H as <-.
  apply (first_running_sound parsed).
  exact (proj1 (cmap_normal_inv parse_line fresh_step parse_line_fresh _ _ E)).
Qed.

Lemma summarize_nonempty (messages : list Message) :
  Forall (fun m => role m = user -> text m <> []) messages ->
  summarize messages <> [].
Proof.
  intros H. unfold summarize.
  destruct (find is_user (rev messages)) as [u|] eqn:E; [|discriminate].
  apply find_some in E as [Hin Hu]. apply in_rev in Hin.
  rewrite Forall_forall in H. specialize (H u Hin).
  unfold is_user in Hu. destruct (role u); [|discriminate].
  specialize (H eq_refl). unfold slice0.
  destruct (text u); [congruence | discriminate].
Qed.

Lemma makeTask_sound (name : jsstring) (user : option jsstring)
      (steps : option (list Step.t)) (w : World) :
  name <> [] ->
  match steps with Some l => Forall step_sound l | None => True end ->
  task_sound (fst (makeTask name user steps w)).
Proof.
  intros Hn Hs. rewrite makeTask_run. cbv zeta. cbn [fst].
  unfold task_sound. cbn [Task.progress Task.status Task.name Task.steps].
  split; [unfold in_range; lra|]. split; [discriminate|]. split; [exact Hn|].
  destruct steps; [exact Hs | exact default_pipeline_sound].
Qed.

Lemma handle_session_sound (e : Event) (a : App.t) (w : World) :
  session_sound a w ->
  session_sound (fst (handle e a w)) (snd (handle e a w)).
Proof.
  intros [Hw [Ht Hm]].
  destruct e; cbn [handle ret fst snd]; try (destruct a; split; [exact Hw | split; [exact Ht | exact Hm]]).
  - (* Tick *)
    unfold onTick. rewrite bind_run. cbn [ret fst snd].
    destruct (mmap_preserves tick_task unit_random task_sound task_sound
                (fun t w' Hw' Ht' => tick_task_sound t w' Hw' Ht')
                (App.tasks a) w Hw Ht) as [Ht' Hw'].
    split; [exact Hw' | split; [exact Ht' | exact Hm]].
  - (* AddTask *)
    unfold onAddTask. destruct (trim (or_str value [])) as [|c r] eqn:E;
      [split; [exact Hw | split; [exact Ht | exact Hm]]|].
    rewrite bind_run. cbn [ret fst snd]. split; [|split].
    + apply unit_random_kept; [|exact Hw]. intros w0. reflexivity.
    + cbn [App.tasks]. constructor; [|exact Ht].
      apply makeTask_sound; [discriminate | exact I].
    + exact Hm.
  - (* SendMessage *)
    unfold sendMessage. cbv zeta.
    destruct (trim (App.draft a)) as [|c r] eqn:E; [split; [exact Hw | split; [exact Ht | exact Hm]]|].
    split; [exact Hw|]. split; [exact Ht|]. cbn [App.messages].
    apply Forall_app. split; [exact Hm|].
    constructor; [|constructor]. intros _. discriminate.
  - (* ReplyDue *)
    unfold onReplyDue.
    destruct (nth_error (App.replies_due a) k); [|split; [exact Hw | split; [exact Ht | exact Hm]]].
    split; [exact Hw|]. split; [exact Ht|]. cbn [App.messages].
    apply Forall_app. split; [exact Hm|].
    constructor; [|constructor]. intros H. discriminate H.
  - (* CreateTaskFromChat *)
    unfold onCreateTaskFromChat, createTaskFromChat.
    destruct (derivePipeline (App.messages a)) as [pipeline|] eqn:E;
      cbn [cbind]; [|split; [exact Hw | split; [exact Ht | exact Hm]]].
    rewrite bind_run. cbn [ret fst snd]. split; [|split].
    + apply unit_random_kept; [|exact Hw]. intros w0. reflexivity.
    + cbn [App.tasks]. constructor; [|exact Ht].
      apply makeTask_sound; [now apply summarize_nonempty|].
      destruct pipeline as [steps|]; [|exact I].
      now apply (derivePipeline_sound (App.messages a)).
    + exact Hm.
Qed.

(** X11.  In every session with a random source in [[0, 1)], every task of
    the collection has a progress in [[0, 100]], exactly 100 when it is
    complete, and a non-empty name; every queued step has neither progress
    nor duration, every complete step has progress exactly 100, and every
    running step that has a progress has it in [[0, 100]]. *)
Theorem session_tasks_sound (events : list Event) (w : World) :
  unit_random w ->
  Forall task_sound (App.tasks (fst (session events w))).
Proof.
  intros Hw. unfold session. rewrite bind_run.
  apply (run_invariant session_sound (fun _ => True)).
  - intros e a w' _. apply handle_session_sound.
  - apply Forall_forall. intros; exact I.
  - rewrite initial_app_run. cbn [fst snd]. split; [|split].
    + apply (unit_random_kept Date_now w keeps_random_Date_now Hw).
    + cbn [App.tasks].
      repeat constructor; cbn; try discriminate; try (intros _; reflexivity).
    + cbn [App.messages]. repeat constructor. intros H. discriminate H.
Qed.

Lemma session_tasks_sound_witness :
  Forall task_sound
    (App.tasks (fst (session sample_session (sample_world (9 # 10))))).
Proof.
  apply (session_tasks_sound sample_session (sample_world (9 # 10))).
  intros n. cbn. split; [discriminate | reflexivity].
Defined.

(** ** The chat of a session *)

Lemma trim_start_incl (s : jsstring) (c : N) :
  In c (trim_start s) -> In c s.
Proof.
  induction s as [|x s IH]; [tauto|]. cbn [trim_start].
  destruct (is_white_space x); [intros H; right; now apply IH | tauto].
Qed.

Lemma trim_incl (s : jsstring) (c : N) : In c (trim s) -> In c s.
Proof.
  unfold trim, trim_end. intros H. apply in_rev in H.
  apply trim_start_incl in H. apply in_rev in H.
  now apply trim_start_incl in H.
Qed.

Lemma one_line_trim (s : jsstring) : one_line s -> one_line (trim s).
Proof. unfold one_line. intros H Hin. apply H. now apply trim_incl. Qed.

Lemma remove_nth_Forall {A} (P : A -> Prop) (l : list A) :
  Forall P l -> forall k, Forall P (remove_nth k l).
Proof.
  intros H. induction H as [|x l Hx Hl IH]; intros k; [destruct k; constructor|].
  destruct k as [|k]; cbn [remove_nth]; [exact Hl|].
  constructor; [exact Hx | apply IH].
Qed.

Lemma remove_nth_Permutation {A} (l : list A) :
  forall k x, nth_error l k = Some x -> Permutation l (x :: remove_nth k l).
Proof.
  induction l as [|y l IH]; intros k x H; [destruct k; discriminate|].
  destruct k as [|k]; cbn [nth_error remove_nth] in *.
  - injection H as ->. apply Permutation_refl.
  - eapply Permutation_trans; [apply perm_skip, (IH k x H)|]. apply perm_swap.
Qed.

Lemma handle_chat_sound (e : Event) (a : App.t) (w : World) :
  typed_on_one_line e -> chat_sound a -> chat_sound (fst (handle e a w)).
Proof.
  intros He [[rest [Hm Hrest]] [Hdue Hdraft]].
  assert (Hsame : chat_sound a)
    by (split; [exists rest; now split | now split]).
  destruct e; cbn [handle ret fst].
  - (* Tick *)
    unfold onTick. rewrite bind_run. exact Hsame.
  - (* AddTask *)
    unfold onAddTask. destruct (trim (or_str value [])); [exact Hsame|].
    rewrite bind_run. exact Hsame.
  - (* SetDraft *)
    split; [exists rest; now split | now split].
  - (* SendMessage *)
    unfold sendMessage. cbv zeta.
    destruct (trim (App.draft a)) as [|c r] eqn:E; [exact Hsame|].
    pose proof (one_line_trim _ Hdraft) as Hsent. rewrite E in Hsent.
    unfold chat_sound. cbn [App.messages App.replies_due App.draft].
    split; [|split].
    + exists (rest ++ [{| role := user; text := c :: r |}]).
      rewrite Hm, app_assoc. split; [reflexivity|].
      apply Forall_app. split; [exact Hrest|].
      constructor; [now left | constructor].
    + apply Forall_app. split; [exact Hdue | now constructor].
    + intros H. exact H.
  - (* ReplyDue *)
    unfold onReplyDue.
    destruct (nth_error (App.replies_due a) k) as [sent|] eqn:E;
      [|exact Hsame].
    assert (Hsent : one_line sent).
    { rewrite Forall_forall in Hdue. apply Hdue.
      now apply (nth_error_In _ k). }
    unfold chat_sound. cbn [App.messages App.replies_due App.draft].
    split; [|split; [now apply remove_nth_Forall | exact Hdraft]].
    exists (rest ++ [{| role := ai; text := planReply sent |}]).
    rewrite Hm, app_assoc. split; [reflexivity|].
    apply Forall_app. split; [exact Hrest|].
    constructor; [right; now exists sent | constructor].
  - (* CreateTaskFromChat *)
    unfold onCreateTaskFromChat, createTaskFromChat.
    destruct (derivePipeline (App.messages a)); cbn [cbind]; [|exact Hsame].
    rewrite bind_run. exact Hsame.
  - exact Hsame.
  - exact Hsame.
Qed.

Lemma session_chat_sound (events : list Event) (w : World) :
  Forall typed_on_one_line events -> chat_sound (fst (session events w)).
Proof.
  intros He. unfold session. rewrite bind_run.
  apply (run_invariant (fun a _ => chat_sound a) typed_on_one_line).
  - intros e a w' Hte. now apply handle_chat_sound.
  - exact He.
  - rewrite initial_app_run. cbn [fst]. split; [|split].
    + exists []. split; [reflexivity | constructor].
    + constructor.
    + intros H. exact H.
Qed.

Lemma derive_of_reply (t : jsstring) :
  no_numbered_continuation t ->
  cbind (cmap parse_line
           (filter test_number_dot (split nl (planReply t))))
        (fun steps =>
           Normal (Some match steps with
                        | [] => []
                        | s0 :: more => set_status running s0 :: more
                        end))
  = Normal (Some planned_steps).
Proof.
  intros H. fold (lines (planReply t)).
  rewrite (numbered_lines_planReply t H). vm_compute. reflexivity.
Qed.

Lemma ai_texts_app (l l' : list Message) :
  ai_texts (l ++ l') = ai_texts l ++ ai_texts l'.
Proof. unfold ai_texts. now rewrite filter_app, map_app. Qed.

Lemma user_texts_app (l l' : list Message) :
  user_texts (l ++ l') = user_texts l ++ user_texts l'.
Proof. unfold user_texts. now rewrite filter_app, map_app. Qed.

Lemma ai_texts_rev (l : list Message) : ai_texts (rev l) = rev (ai_texts l).
Proof.
  induction l as [|m l IH]; [reflexivity|].
  cbn [rev]. rewrite ai_texts_app, IH.
  change (m :: l) with ([m] ++ l). rewrite ai_texts_app, rev_app_distr.
  f_equal. unfold ai_texts. cbn [filter]. now destruct (is_ai m).
Qed.

(** The plan found in the transcript of a session, by the number of ai
    messages after the greeting. *)
Lemma find_plan_chat (rest : list Message) :
  Forall chat_line rest ->
  match ai_texts rest with
  | [] => find is_plan (rev (initial_messages ++ rest)) = None
  | _ :: _ =>
      exists t, one_line t
        /\ find is_plan (rev (initial_messages ++ rest))
           = Some {| role := ai; text := planReply t |}
  end.
Proof.
  intros H. apply Forall_rev in H. rewrite rev_app_distr.
  assert (Hai : ai_texts rest = [] <-> ai_texts (rev rest) = []).
  { rewrite ai_texts_rev. split; intros E; [now rewrite E|].
    apply (f_equal (@rev jsstring)) in E. now rewrite rev_involutive in E. }
  destruct (ai_texts rest) as [|x xs] eqn:E.
  - assert (E' : ai_texts (rev rest) = []) by now apply Hai.
    clear Hai E. revert E'.
    induction H as [|m l Hm _ IH]; intros E; [vm_compute; reflexivity|].
    cbn [app find]. destruct Hm as [Hu|[t [_ ->]]].
    + unfold is_plan at 1. rewrite Hu. apply IH.
      unfold ai_texts in E |- *. cbn [filter] in E. unfold is_ai at 1 in E.
      now rewrite Hu in E.
    + discriminate E.
  - assert (Hne : ai_texts (rev rest) <> []).
    { intros Hnil. apply Hai in Hnil. discriminate Hnil. }
    clear Hai E. revert Hne.
    induction H as [|m l Hm _ IH]; intros Hne;
      [exfalso; apply Hne; reflexivity|].
    cbn [app find]. destruct Hm as [Hu|[t [Ht ->]]].
    + unfold is_plan at 1. rewrite Hu. apply IH.
      unfold ai_texts in Hne |- *. cbn [filter] in Hne.
      unfold is_ai at 1 in Hne. now rewrite Hu in Hne.
    + exists t. split; [exact Ht|]. now rewrite planReply_is_plan.
Qed.

(** X12.  In a session where every text put in the message field is on one
    line, [derivePipeline] on the transcript never throws: it returns
    [undefined] while the greeting is the only ai message, and the four
    planned steps once a reply has arrived.  "Create task" then always
    adds, in front and selected, a running task named after the transcript
    ([summarize]), with the next identifier, the label ["GPT-4"], and the
    default pipeline in the first case, the four planned steps in the
    second. *)
Theorem session_create_from_chat (events : list Event) (w : World) :
  Forall typed_on_one_line events ->
  let a := fst (session events w) in
  let w1 := snd (session events w) in
  let pipeline :=
    if (List.length (ai_texts (App.messages a)) <=? 1)%nat
    then None else Some planned_steps in
  let a' := fst (onCreateTaskFromChat a w1) in
  derivePipeline (App.messages a) = Normal pipeline
  /\ exists t,
       App.tasks a' = t :: App.tasks a
       /\ selected a' = Some t
       /\ Task.id t = (idCounter w1 + 1)%Z
       /\ Task.name t = summarize (App.messages a)
       /\ Task.status t = running
       /\ Task.llm t = lit "GPT-4"
       /\ Task.steps t = match pipeline with
                         | Some steps => steps
                         | None => default_pipeline
                         end.
Proof.
  intros He. cbv zeta.
  destruct (session_chat_sound events w He) as [[rest [Hm Hrest]] _].
  set (a := fst (session events w)) in *.
  set (w1 := snd (session events w)).
  pose proof (find_plan_chat rest Hrest) as Hfind.
  rewrite <- Hm in Hfind.
  assert (Hlen : List.length (ai_texts (App.messages a))
                 = S (List.length (ai_texts rest))).
  { rewrite Hm, ai_texts_app. reflexivity. }
  assert (Hd : derivePipeline (App.messages a)
               = Normal (if (List.length (ai_texts (App.messages a)) <=? 1)%nat
                         then None else Some planned_steps)).
  { rewrite Hlen. unfold derivePipeline.
    destruct (ai_texts rest) as [|x xs].
    - now rewrite Hfind.
    - destruct Hfind as [t [Ht ->]]. cbn [text].
      now rewrite (derive_of_reply t (single_line_no_continuation t Ht)). }
  split; [exact Hd|].
  unfold onCreateTaskFromChat, createTaskFromChat. rewrite Hd. cbn [cbind].
  rewrite bind_run, makeTask_run. cbv zeta. cbn [ret fst].
  eexists. split; [reflexivity|].
  unfold selected. cbn [App.selectedId App.tasks find has_id Task.id].
  rewrite Z.eqb_refl.
  cbn [Task.id Task.name Task.status Task.llm Task.steps].
  do 4 (split; [reflexivity|]).
  destruct (List.length (ai_texts (App.messages a)) <=? 1)%nat;
    split; reflexivity.
Qed.

Lemma sample_session_one_line : Forall typed_on_one_line sample_session.
Proof.
  repeat constructor. vm_compute.
  intros H. repeat (destruct H as [H|H]; [discriminate H|]). exact H.
Defined.

Lemma session_create_from_chat_witness :
  let a := fst (session sample_session (sample_world (9 # 10))) in
  let w1 := snd (session sample_session (sample_world (9 # 10))) in
  let pipeline :=
    if (List.length (ai_texts (App.messages a)) <=? 1)%nat
    then None else Some planned_steps in
  let a' := fst (onCreateTaskFromChat a w1) in
  derivePipeline (App.messages a) = Normal pipeline
  /\ exists t,
       App.tasks a' = t :: App.tasks a
       /\ selected a' = Some t
       /\ Task.id t = (idCounter w1 + 1)%Z
       /\ Task.name t = summarize (App.messages a)
       /\ Task.status t = running
       /\ Task.llm t = lit "GPT-4"
       /\ Task.steps t = match pipeline with
                         | Some steps => steps
                         | None => default_pipeline
                         end.
Proof.
  exact (session_create_from_chat sample_session (sample_world (9 # 10))
           sample_session_one_line).
Defined.

Lemma trim_start_head (s : jsstring) (c : N) (r : jsstring) :
  trim_start s = c :: r -> is_white_space c = false.
Proof.
  induction s as [|x s IH]; [discriminate|]. cbn [trim_start].
  destruct (is_white_space x) eqn:E; [exact IH|].
  intros H. injection H as <- _. exact E.
Qed.

Lemma trim_start_suffix (s : jsstring) :
  exists pre, s = pre ++ trim_start s.
Proof.
  induction s as [|x s [pre IH]]; [now exists []|]. cbn [trim_start].
  destruct (is_white_space x); [|now exists []].
  exists (x :: pre). cbn [app]. now rewrite <- IH.
Qed.

Lemma trim_trimmed (s : jsstring) : trim s <> [] -> trimmed (trim s).
Proof.
  intros Hne. split; [exact Hne|]. unfold trim, trim_end in *.
  set (u := trim_start s) in *. set (y := trim_start (rev u)) in *.
  split.
  - intros c r H.
    destruct (trim_start_suffix (rev u)) as [pre Hpre]. fold y in Hpre.
    assert (Hy : y = rev r ++ [c]).
    { rewrite <- (rev_involutive y), H. reflexivity. }
    assert (Hu : u = c :: r ++ rev pre).
    { rewrite <- (rev_involutive u), Hpre, Hy.
      rewrite !rev_app_distr, rev_involutive. reflexivity. }
    apply (trim_start_head s c (r ++ rev pre)). exact Hu.
  - intros c r H.
    apply (trim_start_head (rev u) c (rev r)). fold y.
    rewrite <- (rev_involutive y), H, rev_app_distr. reflexivity.
Qed.

Lemma handle_replies_match (e : Event) (a : App.t) (w : World) :
  replies_match a -> replies_match (fst (handle e a w)).
Proof.
  intros [[replied [Hp Ha]] Ht].
  assert (Hsame : replies_match a)
    by (split; [exists replied; now split | exact Ht]).
  destruct e; cbn [handle ret fst].
  - unfold onTick. rewrite bind_run. exact Hsame.
  - unfold onAddTask. destruct (trim (or_str value [])); [exact Hsame|].
    rewrite bind_run. exact Hsame.
  - split; [exists replied; now split | exact Ht].
  - (* SendMessage *)
    unfold sendMessage. cbv zeta.
    destruct (trim (App.draft a)) as [|c r] eqn:E; [exact Hsame|].
    unfold replies_match. cbn [App.messages App.replies_due].
    rewrite user_texts_app, ai_texts_app.
    change (user_texts [{| role := user; text := c :: r |}]) with [c :: r].
    change (ai_texts [{| role := user; text := c :: r |}])
      with (@nil jsstring).
    rewrite app_nil_r. split.
    + exists replied. split; [|exact Ha].
      rewrite app_assoc. now apply Permutation_app_tail.
    + apply Forall_app. split; [exact Ht|]. constructor; [|constructor].
      rewrite <- E. apply trim_trimmed. rewrite E. discriminate.
  - (* ReplyDue *)
    unfold onReplyDue.
    destruct (nth_error (App.replies_due a) k) as [sent|] eqn:E;
      [|exact Hsame].
    unfold replies_match. cbn [App.messages App.replies_due].
    rewrite user_texts_app, ai_texts_app.
    change (user_texts [{| role := ai; text := planReply sent |}])
      with (@nil jsstring).
    change (ai_texts [{| role := ai; text := planReply sent |}])
      with [planReply sent].
    rewrite app_nil_r. split; [|exact Ht].
    exists (replied ++ [sent]). split.
    + eapply Permutation_trans; [exact Hp|].
      rewrite <- app_assoc. apply Permutation_app_head.
      now apply remove_nth_Permutation.
    + rewrite Ha, map_app, app_assoc. reflexivity.
  - unfold onCreateTaskFromChat, createTaskFromChat.
    destruct (derivePipeline (App.messages a)); cbn [cbind]; [|exact Hsame].
    rewrite bind_run. exact Hsame.
  - exact Hsame.
  - exact Hsame.
Qed.

(** X13.  In every session there is a list of texts, those answered so far
    in the order of their answers, such that the ai messages of the
    transcript are the greeting followed by the [planReply] of each of
    them, and such that the user messages of the transcript are exactly
    those texts and the ones whose reply is still due, each one counted
    once: every sent message gets one reply and no reply comes from anything
    else.  Every user message is non-empty and has no white space at either
    end. *)
Theorem session_replies (events : list Event) (w : World) :
  let a := fst (session events w) in
  (exists replied,
     Permutation (user_texts (App.messages a))
                 (replied ++ App.replies_due a)
     /\ ai_texts (App.messages a)
        = map text initial_messages ++ map planReply replied)
  /\ Forall trimmed (user_texts (App.messages a)).
Proof.
  cbv zeta. unfold session. rewrite bind_run.
  apply (run_invariant (fun a _ => replies_match a) (fun _ => True)).
  - intros e a w' _. apply handle_replies_match.
  - apply Forall_forall. intros; exact I.
  - rewrite initial_app_run. cbn [fst]. split; [|constructor].
    exists []. split; [apply Permutation_refl | reflexivity].
Qed.

(** ** Adding a task by name *)

(** X14.  "Add task" with a missing, empty or blank name changes nothing
    and uses no identifier.  Otherwise it puts in front of the collection a
    task named by the trimmed input, owned by the current user, with the
    default pipeline and the next identifier; that task is the selected one
    and the first of the list shown, in the team view and in the individual
    view. *)
Theorem onAddTask_outcome (value : option jsstring) (a : App.t) (w : World) :
  let val := trim (or_str value []) in
  let a' := fst (onAddTask value a w) in
  (val = [] -> onAddTask value a w = (a, w))
  /\ (val <> [] ->
      exists t,
        App.tasks a' = t :: App.tasks a
        /\ Task.name t = val /\ Task.user t = currentUser
        /\ Task.steps t = default_pipeline
        /\ Task.id t = (idCounter w + 1)%Z
        /\ selected a' = Some t
        /\ forall v, hd_error (filtered v (App.tasks a')) = Some t).
Proof.
  cbv zeta. unfold onAddTask.
  destruct (trim (or_str value [])) as [|c r].
  - split; [reflexivity | congruence].
  - split; [discriminate|]. intros _.
    rewrite bind_run, makeTask_run. cbv zeta. cbn [ret fst].
    eexists. split; [reflexivity|].
    cbn [Task.name Task.user Task.steps Task.id].
    repeat (split; [reflexivity|]). split.
    + unfold selected. cbn [App.selectedId App.tasks find has_id Task.id].
      now rewrite Z.eqb_refl.
    + intros v. destruct v; reflexivity.
Qed.

(** ** The collection over a session *)

Lemma Forall2_In_l {A B} (R : A -> B -> Prop) (l : list A) (l' : list B) :
  Forall2 R l l' -> forall x, In x l -> exists y, In y l' /\ R x y.
Proof.
  intros H. induction H as [|a b l l' Hab _ IH]; intros x Hx; [contradiction|].
  destruct Hx as [<-|Hx].
  - exists b. split; [now left | exact Hab].
  - destruct (IH x Hx) as [y [Hy Hr]]. exists y. split; [now right | exact Hr].
Qed.

Lemma jsstring_eqb_refl (s : jsstring) : jsstring_eqb s s = true.
Proof.
  induction s as [|c s IH]; [reflexivity|].
  cbn [jsstring_eqb]. now rewrite N.eqb_refl, IH.
Qed.

Lemma run_keeps (events : list Event) :
  forall a w,
    exists added kept,
      App.tasks (fst (run events a w)) = added ++ kept
      /\ Forall2 task_later (App.tasks a) kept.
Proof.
  induction events as [|e more IH]; intros a w.
  - exists [], (App.tasks a). split; [reflexivity|].
    apply Forall2_same, task_later_refl.
  - cbn [run]. rewrite bind_run.
    destruct (IH (fst (handle e a w)) (snd (handle e a w)))
      as [added [kept [Heq Hkept]]].
    assert (Hstep : exists added1 kept1,
               App.tasks (fst (handle e a w)) = added1 ++ kept1
               /\ Forall2 task_later (App.tasks a) kept1).
    { assert (Hsame : exists added1 kept1,
                 App.tasks a = added1 ++ kept1
                 /\ Forall2 task_later (App.tasks a) kept1).
      { exists [], (App.tasks a). split; [reflexivity|].
        apply Forall2_same, task_later_refl. }
      destruct e; cbn [handle ret fst].
      - unfold onTick. rewrite bind_run. cbn [ret fst App.tasks].
        exists [], (fst (tick (App.tasks a) w)).
        split; [reflexivity | apply tick_later].
      - unfold onAddTask. destruct (trim (or_str value [])); [exact Hsame|].
        rewrite bind_run. cbn [ret fst App.tasks].
        eexists [_], (App.tasks a). split; [reflexivity|].
        apply Forall2_same, task_later_refl.
      - exact Hsame.
      - unfold sendMessage. cbv zeta.
        destruct (trim (App.draft a)); exact Hsame.
      - unfold onReplyDue.
        destruct (nth_error (App.replies_due a) k); exact Hsame.
      - unfold onCreateTaskFromChat, createTaskFromChat.
        destruct (derivePipeline (App.messages a)); cbn [cbind];
          [|exact Hsame].
        rewrite bind_run. cbn [ret fst App.tasks].
        eexists [_], (App.tasks a). split; [reflexivity|].
        apply Forall2_same, task_later_refl.
      - exact Hsame.
      - exact Hsame. }
    destruct Hstep as [added1 [kept1 [Heq1 Hkept1]]].
    rewrite Heq1 in Hkept.
    apply Forall2_app_inv_l in Hkept as [mid [kept2 [Hmid [Hk2 ->]]]].
    exists (added ++ mid), kept2. split.
    + now rewrite Heq, app_assoc.
    + eapply Forall2_chain; [apply task_later_trans | exact Hkept1 | exact Hk2].
Qed.

(** X15.  No handler removes or reorders tasks: after any sequence of
    events the collection is some added tasks followed by the tasks it had
    before, in their order, each with its identifier, name, user, label,
    start time and step names, and with statuses that have only moved
    forward. *)
Theorem run_keeps_tasks (events : list Event) (a : App.t) (w : World) :
  exists added kept,
    App.tasks (fst (run events a w)) = added ++ kept
    /\ Forall2 task_later (App.tasks a) kept.
Proof. apply run_keeps. Qed.

(** X16.  In every session some task is selected, and it is a task of the
    collection: the details panel is never empty and never shows a task
    that does not exist (it may show one that the individual view hides). *)
Theorem session_always_selects (events : list Event) (w : World) :
  let a := fst (session events w) in
  exists t, selected a = Some t /\ In t (App.tasks a).
Proof.
  cbv zeta. unfold session. rewrite bind_run.
  set (a0 := fst (initial_app w)). set (w0 := snd (initial_app w)).
  destruct (run_keeps events a0 w0) as [added [kept [Heq Hkept]]].
  set (a := fst (run events a0 w0)) in *.
  assert (Hown : has_own_task a).
  { unfold a0 in Hkept. rewrite initial_app_run in Hkept.
    cbn [fst App.tasks] in Hkept.
    destruct (Forall2_In_l _ _ _ Hkept _ (or_introl eq_refl))
      as [t [Hin [_ [_ [Hu _]]]]].
    exists t. split; [rewrite Heq; apply in_or_app; now right | exact Hu]. }
  destruct Hown as [own [Hin Hu]]. unfold selected.
  destruct (find (has_id (App.selectedId a)) (App.tasks a)) as [t|] eqn:E.
  - exists t. split; [reflexivity|]. now apply find_some in E.
  - destruct (App.view a); cbn [filtered].
    + destruct (App.tasks a) as [|t0 l]; [contradiction|].
      exists t0. split; [reflexivity | now left].
    + assert (Hf : In own (filter (fun t => jsstring_eqb (Task.user t)
                                                currentUser) (App.tasks a))).
      { apply filter_In. split; [exact Hin|]. rewrite Hu.
        apply jsstring_eqb_refl. }
      destruct (filter _ (App.tasks a)) as [|t0 l] eqn:Ef; [contradiction|].
      exists t0. split; [reflexivity|].
      assert (Hin0 : In t0 (t0 :: l)) by now left.
      rewrite <- Ef in Hin0. now apply filter_In in Hin0.
Qed.

(** ** The random numbers a tick draws *)

(** X17.  A tick draws no random number for a task that is not running.
    For a running task it draws one number for the task, one for each
    running step, and, only when the incremented progress exceeds 10, one
    for each queued step. *)
Theorem tick_task_draws (t : Task.t) (w : World) :
  random_calls (snd (tick_task t w)) = (random_calls w + draws_of t w)%nat.
Proof.
  unfold draws_of. destruct (Task.status t) eqn:E;
    try (rewrite tick_task_not_running by congruence; cbn [snd]; lia).
  rewrite (tick_task_running t w E). cbv zeta. cbn [snd].
  rewrite calcDuration_random_calls, steps_draws.
  cbn [Math_random snd random_calls]. lia.
Qed.
